(** * Partial predicate solver and DPLL sketch of lib/auth/predicate

    A shallow embedding of
      - [src/unnamed/part_002]  (package predicate: the DPLL state, its
        constructor and the clause evaluator), and
      - [src/lib/auth/predicate/partial/solver.go] (lowering of a Go
        expression to Z3 terms and the enumeration loop),
    together with the properties the specification states about them.

    Go values that can be absent ([*string], [any]) are options or tagged
    values, a Go panic is an explicit outcome, the Z3 engine and the Go
    parser are parameters. *)

From Stdlib Require Import ZArith String Ascii List Lia Bool.
From stdpp Require Import base option list strings gmap.
Import ListNotations.

Local Open Scope string_scope.
Local Open Scope list_scope.
Local Set Warnings "-register-all".

(** ** Outcomes of Go code that may panic *)

Inductive outcome (A : Type) : Type :=
| Ret (a : A)
| Panic (msg : string).
Arguments Ret {A} a.
Arguments Panic {A} msg.

Definition obind {A B : Type} (x : outcome A) (k : A -> outcome B) : outcome B :=
  match x with
  | Ret a => k a
  | Panic msg => Panic msg
  end.

Notation "x <~ c1 ;; c2" := (obind c1 (fun x => c2))
  (at level 100, c1 at next level, right associativity).

(** Dereferencing a Go [*string]. *)
Definition deref (p : option string) : outcome string :=
  match p with
  | Some s => Ret s
  | None => Panic "invalid memory address or nil pointer dereference"
  end.

(** ** The DPLL sketch (package predicate) *)

Module Dpll.

(** [const ( dpllSatisfied = iota; dpllUnsatisfied; dpllUnknown )] *)
Definition dpllSatisfied : Z := 0.
Definition dpllUnsatisfied : Z := 1.
Definition dpllUnknown : Z := 2.

(** [type node any] with the five pointer shapes the type switches know;
    [nodeForeign] stands for every other dynamic value (the [default:]
    branch of the switches). *)
Inductive node : Type :=
| nodeLiteral (value : bool)
| nodeIdentifier (key : string)
| nodeNot (left : node)
| nodeOr (left right : node)
| nodeAnd (left right : node)
| nodeForeign.

Record assignment : Type := mkAssignment { key : string; value : bool }.

Record state : Type := mkState {
  clauses : list node;
  assignments : list assignment;
  watched : gmap string (list node);
  enforce : list node;
  uprop : list node
}.

(** The local closure [or] of [pickLiteral]. *)
Definition or_ptr (left right : option string) : option string :=
  match left with
  | Some _ => left
  | None => right
  end.

(** [pickLiteral]: Go evaluates both arguments of [or(...)] before the
    call, so a panic of the right operand is not masked by the left. *)
Fixpoint pickLiteral (n : node) (isExcluded : string -> outcome bool)
  : outcome (option string) :=
  match n with
  | nodeLiteral _ => Ret None
  | nodeIdentifier k =>
      ex <~ isExcluded k ;;
      if (ex : bool) then Ret None else Ret (Some k)
  | nodeNot l => pickLiteral l isExcluded
  | nodeOr l r =>
      a <~ pickLiteral l isExcluded ;;
      b <~ pickLiteral r isExcluded ;;
      Ret (or_ptr a b)
  | nodeAnd l r =>
      a <~ pickLiteral l isExcluded ;;
      b <~ pickLiteral r isExcluded ;;
      Ret (or_ptr a b)
  | nodeForeign => Panic "unreachable"
  end.

(** [watched[lit] = append(watched[lit], clause)] *)
Definition watch (clause : node) (w : gmap string (list node)) (lit : string)
  : gmap string (list node) :=
  <[lit := default [] (w !! lit) ++ [clause]]> w.

(** The body of [for _, clause := range clauses] in [newState], threaded
    over the three buckets. *)
Fixpoint classify (cs : list node)
    (w : gmap string (list node)) (enf upr : list node)
  : outcome (gmap string (list node) * list node * list node) :=
  match cs with
  | [] => Ret (w, enf, upr)
  | clause :: rest =>
      a <~ pickLiteral clause (fun _ => Ret false) ;;
      match a with
      | Some _ => classify rest w (enf ++ [clause]) upr
      | None =>
          b <~ pickLiteral clause
                 (fun x => a' <~ deref a ;; Ret (negb (String.eqb x a'))) ;;
          match b with
          | Some _ => classify rest w enf (upr ++ [clause])
          | None =>
              a' <~ deref a ;;
              b' <~ deref b ;;
              classify rest (fold_left (watch clause) [a'; b'] w) enf upr
          end
      end
  end.

Definition newState (clause : node) : outcome state :=
  let clauses := [clause] in
  r <~ classify clauses ∅ [] [] ;;
  let '(w, enf, upr) := r in
  Ret {| clauses := clauses; assignments := [];
         watched := w; enforce := enf; uprop := upr |}.

(** [evalClause] as the source has it. *)
Definition evalClause (st : state) (clause : node) : Z := dpllUnknown.

(** [isAssigned]: the pair (assigned, value). *)
Fixpoint isAssigned_in (l : list assignment) (k : string) : bool * bool :=
  match l with
  | [] => (false, false)
  | a :: rest =>
      if String.eqb (key a) k then (true, value a) else isAssigned_in rest k
  end.

Definition isAssigned (st : state) (k : string) : bool * bool :=
  isAssigned_in (assignments st) k.

(** [pickUnassigned] *)
Fixpoint pickUnassigned_in (st : state) (cs : list node) : outcome (option string) :=
  match cs with
  | [] => Ret None
  | clause :: rest =>
      a <~ pickLiteral clause (fun x => Ret (fst (isAssigned st x))) ;;
      match a with
      | Some _ => Ret a
      | None => pickUnassigned_in st rest
      end
  end.

Definition pickUnassigned (st : state) : outcome (option string) :=
  pickUnassigned_in st (clauses st).

(** *** Three-valued clause evaluation, following the specification

    A clause is a disjunction of literals; a literal is an identifier, a
    negated identifier or a boolean constant. *)

Inductive literal : Type :=
| LitVar (k : string) (polarity : bool)
| LitConst (b : bool).

Fixpoint clauseLiterals (n : node) : option (list literal) :=
  match n with
  | nodeLiteral b => Some [LitConst b]
  | nodeIdentifier k => Some [LitVar k true]
  | nodeNot (nodeIdentifier k) => Some [LitVar k false]
  | nodeNot (nodeLiteral b) => Some [LitConst (negb b)]
  | nodeOr l r =>
      match clauseLiterals l, clauseLiterals r with
      | Some ls, Some rs => Some (ls ++ rs)
      | _, _ => None
      end
  | _ => None
  end.

(** the literal matches its assigned polarity *)
Definition litMatches (st : state) (l : literal) : bool :=
  match l with
  | LitVar k pol =>
      let '(assigned, v) := isAssigned st k in assigned && Bool.eqb v pol
  | LitConst b => b
  end.

Definition litAssigned (st : state) (l : literal) : bool :=
  match l with
  | LitVar k _ => fst (isAssigned st k)
  | LitConst _ => true
  end.

(** [None] when the node is not a clause. *)
Definition evalClause_spec (st : state) (clause : node) : option Z :=
  match clauseLiterals clause with
  | None => None
  | Some ls =>
      if existsb (litMatches st) ls then Some dpllSatisfied
      else if forallb (litAssigned st) ls then Some dpllUnsatisfied
      else Some dpllUnknown
  end.

(** Whether an identifier occurs in a node. *)
Fixpoint hasIdentifier (n : node) : bool :=
  match n with
  | nodeLiteral _ => false
  | nodeIdentifier _ => true
  | nodeNot l => hasIdentifier l
  | nodeOr l r => hasIdentifier l || hasIdentifier r
  | nodeAnd l r => hasIdentifier l || hasIdentifier r
  | nodeForeign => false
  end.

Fixpoint wellShaped (n : node) : bool :=
  match n with
  | nodeLiteral _ => true
  | nodeIdentifier _ => true
  | nodeNot l => wellShaped l
  | nodeOr l r => wellShaped l && wellShaped r
  | nodeAnd l r => wellShaped l && wellShaped r
  | nodeForeign => false
  end.

(** The identifiers of a node, left to right. *)
Fixpoint identifiers (n : node) : list string :=
  match n with
  | nodeLiteral _ => []
  | nodeIdentifier k => [k]
  | nodeNot l => identifiers l
  | nodeOr l r => identifiers l ++ identifiers r
  | nodeAnd l r => identifiers l ++ identifiers r
  | nodeForeign => []
  end.

(** The identifiers of the clauses that have no assignment yet. *)
Definition unassigned (st : state) : list string :=
  List.filter (fun k => negb (fst (isAssigned st k)))
              (flat_map identifiers (clauses st)).

Definition set_assignments (st : state) (a : list assignment) : state :=
  {| clauses := clauses st; assignments := a; watched := watched st;
     enforce := enforce st; uprop := uprop st |}.

(** The closure [satisfied] of [backtrackAdjust]: a clause stops the scan
    only when [evalClause] answers [dpllUnsatisfied]. *)
Definition satisfied (st : state) : bool :=
  forallb (fun clause => negb (evalClause st clause =? dpllUnsatisfied)%Z)
          (clauses st).

(** [ass := &rem[len(rem)-1]; ass.value = !ass.value] *)
Fixpoint flipLast (l : list assignment) : list assignment :=
  match l with
  | [] => []
  | [a] => [mkAssignment (key a) (negb (value a))]
  | a :: rest => a :: flipLast rest
  end.

(** [backtrackAdjust(state, rem)]. [rem] shares its backing array with
    [state.assignments] (the caller passes [state.assignments] itself and
    the recursion passes [rem[1:]]), so [rem] is given by its length [n]:
    it is the slice of the last [n] assignments, and flipping its last
    element flips the last assignment of the state. *)
Fixpoint backtrackAdjust (st : state) (n : nat) {struct n}
  : outcome (bool * state) :=
  r <~ (if satisfied st then Ret (true, st)
        else match n with
             | O => Panic "slice bounds out of range [1:0]"
             | S n' => backtrackAdjust st n'
             end) ;;
  if fst r then Ret (true, snd r)
  else
    match n with
    | O => Ret (false, snd r)
    | S n' =>
        let st1 := set_assignments (snd r) (flipLast (assignments (snd r))) in
        r2 <~ (if satisfied st1 then Ret (true, st1)
               else backtrackAdjust st1 n') ;;
        if fst r2 then Ret (true, snd r2) else Ret (false, snd r2)
    end.

(** The first loop of [dpll]: [Ret true] when every enforce clause is
    satisfied, [Ret false] on the first unsatisfied one. *)
Fixpoint checkEnforce (st : state) (cs : list node) : outcome bool :=
  match cs with
  | [] => Ret true
  | clause :: rest =>
      let r := evalClause st clause in
      if (r =? dpllSatisfied)%Z then checkEnforce st rest
      else if (r =? dpllUnsatisfied)%Z then Ret false
      else if (r =? dpllUnknown)%Z then Panic "unreachable"
      else checkEnforce st rest
  end.

(** The search loop of [dpll]; [None] is a loop still running. *)
Fixpoint dpllLoop (fuel : nat) (st : state) : option (outcome (bool * state)) :=
  match fuel with
  | O => None
  | S fuel' =>
      match pickUnassigned st with
      | Panic msg => Some (Panic msg)
      | Ret None => Some (Ret (true, st))
      | Ret (Some literal) =>
          let st1 := set_assignments st
                       (assignments st ++ [mkAssignment literal true]) in
          match backtrackAdjust st1 (length (assignments st1)) with
          | Panic msg => Some (Panic msg)
          | Ret (false, st2) => Some (Ret (false, st2))
          | Ret (true, st2) => dpllLoop fuel' st2
          end
      end
  end.

Definition dpll (fuel : nat) (st : state) : option (outcome (bool * state)) :=
  match checkEnforce st (enforce st) with
  | Panic msg => Some (Panic msg)
  | Ret false => Some (Ret (false, st))
  | Ret true => dpllLoop fuel st
  end.

End Dpll.

(** ** The partial solver (lib/auth/predicate/partial/solver.go) *)

(** *** go/token and go/ast, as far as [lower] inspects them *)

Module token.
Inductive Token : Type :=
| INT | FLOAT | IMAG | CHAR | STRING
| ADD | SUB | MUL | QUO | REM
| AND | OR | XOR | SHL | SHR | AND_NOT
| LAND | LOR | ARROW
| EQL | LSS | GTR | NOT
| NEQ | LEQ | GEQ | TILDE.
End token.

Module ast.
(** [ForeignExpr] stands for every node type [lower] has no case for
    (composite literals, function literals, star expressions, ...). *)
Inductive Expr : Type :=
| ParenExpr (X : Expr)
| BinaryExpr (X : Expr) (Op : token.Token) (Y : Expr)
| UnaryExpr (Op : token.Token) (X : Expr)
| BasicLit (Kind : token.Token) (Val : string)
| IndexExpr (X Index : Expr)
| SelectorExpr (X : Expr) (Sel : string)
| Ident (Name : string)
| CallExpr (Fun : Expr) (Args : list Expr)
| ForeignExpr.
End ast.

(** *** The part of the go-z3 binding the solver uses *)

Module z3.

Inductive Kind : Type :=
| KindUninterpreted | KindBool | KindInt | KindString.

(** [NilSort] is the zero value [z3.Sort{}]. *)
Inductive Sort : Type :=
| NilSort | IntSort | BoolSort | StringSort.

Definition Sort_Kind (s : Sort) : Kind :=
  match s with
  | NilSort => KindUninterpreted
  | IntSort => KindInt
  | BoolSort => KindBool
  | StringSort => KindString
  end.

(** Terms built through the binding. [FromInt] is always called with
    [IntSort] by the solver. *)
Inductive Value : Type :=
| FromInt (v : Z)
| FromBool (b : bool)
| FromString (s : string)
| Const (name : string) (sort : Sort)
| Eq (x y : Value)
| LT (x y : Value)
| LE (x y : Value)
| GT (x y : Value)
| GE (x y : Value)
| And (x y : Value)
| Or (x y : Value)
| Not (x : Value)
| Distinct (x y : Value).

Definition Value_Sort (v : Value) : Sort :=
  match v with
  | FromInt _ => IntSort
  | FromBool _ => BoolSort
  | FromString _ => StringSort
  | Const _ s => s
  | _ => BoolSort
  end.

(** What a model assigns: one interpretation per sort and name. *)
Inductive scalar : Type :=
| SInt (z : Z)
| SBool (b : bool)
| SStr (s : string).

Record Model : Type := mkModel {
  m_int : string -> Z;
  m_bool : string -> bool;
  m_str : string -> string
}.

Definition scalar_eqb (a b : scalar) : option bool :=
  match a, b with
  | SInt x, SInt y => Some (Z.eqb x y)
  | SBool x, SBool y => Some (Bool.eqb x y)
  | SStr x, SStr y => Some (String.eqb x y)
  | _, _ => None
  end.

Definition int_rel (f : Z -> Z -> bool) (a b : option scalar) : option scalar :=
  match a, b with
  | Some (SInt x), Some (SInt y) => Some (SBool (f x y))
  | _, _ => None
  end.

Definition bool_rel (f : bool -> bool -> bool) (a b : option scalar) : option scalar :=
  match a, b with
  | Some (SBool x), Some (SBool y) => Some (SBool (f x y))
  | _, _ => None
  end.

Definition eq_rel (neg : bool) (a b : option scalar) : option scalar :=
  match a, b with
  | Some x, Some y =>
      match scalar_eqb x y with
      | Some r => Some (SBool (xorb neg r))
      | None => None
      end
  | _, _ => None
  end.

(** The value of a term in a model; [None] for an ill-sorted term. *)
Fixpoint eval (m : Model) (v : Value) : option scalar :=
  match v with
  | FromInt z => Some (SInt z)
  | FromBool b => Some (SBool b)
  | FromString s => Some (SStr s)
  | Const n IntSort => Some (SInt (m_int m n))
  | Const n BoolSort => Some (SBool (m_bool m n))
  | Const n StringSort => Some (SStr (m_str m n))
  | Const n NilSort => None
  | Eq x y => eq_rel false (eval m x) (eval m y)
  | Distinct x y => eq_rel true (eval m x) (eval m y)
  | LT x y => int_rel Z.ltb (eval m x) (eval m y)
  | LE x y => int_rel Z.leb (eval m x) (eval m y)
  | GT x y => int_rel Z.gtb (eval m x) (eval m y)
  | GE x y => int_rel Z.geb (eval m x) (eval m y)
  | And x y => bool_rel andb (eval m x) (eval m y)
  | Or x y => bool_rel orb (eval m x) (eval m y)
  | Not x =>
      match eval m x with
      | Some (SBool b) => Some (SBool (negb b))
      | _ => None
      end
  end.

Definition holds (m : Model) (v : Value) : bool :=
  match eval m v with
  | Some (SBool true) => true
  | _ => false
  end.

Definition lit (s : scalar) : Value :=
  match s with
  | SInt z => FromInt z
  | SBool b => FromBool b
  | SStr s => FromString s
  end.

(** [model.Eval(val, true)]: the numeral, truth value or string the
    model gives to [val], with model completion. *)
Definition Model_Eval (m : Model) (v : Value) : Value :=
  match eval m v with
  | Some s => lit s
  | None => v
  end.

(** [solver.Check()] followed by [solver.Model()]: the answer of the
    engine on an assertion stack. [CheckError] is the non-nil [err]
    (unknown, interrupted). *)
Inductive CheckResult : Type :=
| Sat (m : Model)
| Unsat
| CheckError.

End z3.

Module Partial.
Import token ast z3.

(** [type Type int] and its constants. *)
Definition TypeInt : Z := 0.
Definition TypeBool : Z := 1.
Definition TypeString : Z := 2.

(** The dynamic values a [Resolver] may return in its [any]. *)
Inductive any : Type :=
| anyNil
| anyInt (v : Z)
| anyString (s : string)
| anyBool (b : bool)
| anyOther.

Definition Resolver : Type := list string -> any.

Inductive error : Type :=
| ParseError                      (* go/parser *)
| NumError                        (* strconv.Atoi *)
| SolverError                     (* z3 *)
| BadParameter (msg : string)     (* trace.BadParameter *)
| NotImplemented (msg : string)   (* trace.NotImplemented *)
| NotFound (msg : string)         (* trace.NotFound *)
| LimitExceeded (msg : string).   (* trace.LimitExceeded *)

(** A Go result [(T, error)], or a run-time panic. *)
Inductive result (A : Type) : Type :=
| Ok (a : A)
| Err (e : error)
| Panics (msg : string).
Arguments Ok {A} a.
Arguments Err {A} e.
Arguments Panics {A} msg.

(** [type ctx struct]; [solver] holds the assertion stack of the
    [*z3.Solver] the context points to, [def] carries no state. *)
Record ctx : Type := mkCtx {
  solver : list Value;
  idents : gmap string Value;
  unkTy : Sort;
  resolveIdentifier : Resolver
}.

Definition set_idents (c : ctx) (i : gmap string Value) : ctx :=
  {| solver := solver c; idents := i; unkTy := unkTy c;
     resolveIdentifier := resolveIdentifier c |}.

Definition set_unkTy (c : ctx) (s : Sort) : ctx :=
  {| solver := solver c; idents := idents c; unkTy := s;
     resolveIdentifier := resolveIdentifier c |}.

(** [ctx.solver.Assert(v)] and [ctx.solver.Reset()] *)
Definition Assert (v : Value) (c : ctx) : ctx :=
  {| solver := solver c ++ [v]; idents := idents c; unkTy := unkTy c;
     resolveIdentifier := resolveIdentifier c |}.

Definition Reset (c : ctx) : ctx :=
  {| solver := []; idents := idents c; unkTy := unkTy c;
     resolveIdentifier := resolveIdentifier c |}.

(** Lowering threads the context: a computation returns its result and
    the context it leaves. *)
Definition M (A : Type) : Type := ctx -> result A * ctx.

Definition ret {A : Type} (a : A) : M A := fun c => (Ok a, c).
Definition fail {A : Type} (e : error) : M A := fun c => (Err e, c).
Definition panic {A : Type} (msg : string) : M A := fun c => (Panics msg, c).

Definition bind {A B : Type} (x : M A) (k : A -> M B) : M B :=
  fun c =>
    match x c with
    | (Ok a, c') => k a c'
    | (Err e, c') => (Err e, c')
    | (Panics msg, c') => (Panics msg, c')
    end.

Notation "x <- c1 ;;; c2" := (bind c1 (fun x => c2))
  (at level 100, c1 at next level, right associativity).

(** [strings.Join(fields, ".")] *)
Definition Join (fields : list string) (sep : string) : string :=
  String.concat sep fields.

(** [(ctx *ctx) resolve] *)
Definition resolve (fields : list string) : M Value :=
  fun c =>
    let full := Join fields "." in
    match idents c !! full with
    | Some v => (Ok v, c)
    | None =>
        match resolveIdentifier c fields with
        | anyNil =>
            let val := Const full (unkTy c) in
            (Ok val, set_idents c (<[full := val]> (idents c)))
        | anyInt v =>
            let ident := FromInt v in
            (Ok ident, set_idents c (<[full := ident]> (idents c)))
        | anyString s =>
            let ident := FromString s in
            (Ok ident, set_idents c (<[full := ident]> (idents c)))
        | _ => (Err (BadParameter "unsupported type"), c)
        end
    end.

(** The type assertions [x.(z3.Int)], [x.(z3.Bool)], [x.(z3.String)]:
    a failed assertion without the comma-ok form panics. *)
Definition asInt (x : Value) : M Value :=
  match Value_Sort x with
  | IntSort => ret x
  | _ => panic "interface conversion: z3.Value is not z3.Int"
  end.

Definition asBool (x : Value) : M Value :=
  match Value_Sort x with
  | BoolSort => ret x
  | _ => panic "interface conversion: z3.Value is not z3.Bool"
  end.

Definition asString (x : Value) : M Value :=
  match Value_Sort x with
  | StringSort => ret x
  | _ => panic "interface conversion: z3.Value is not z3.String"
  end.

Definition Kind_eqb (a b : Kind) : bool :=
  match a, b with
  | KindUninterpreted, KindUninterpreted => true
  | KindBool, KindBool => true
  | KindInt, KindInt => true
  | KindString, KindString => true
  | _, _ => false
  end.

Definition pickType (x y : Value) : M Kind :=
  let xk := Sort_Kind (Value_Sort x) in
  let yk := Sort_Kind (Value_Sort y) in
  if negb (Kind_eqb xk yk) then fail (BadParameter "type mismatch")
  else ret xk.

(** [strconv.Atoi] on a 64-bit platform: an optional sign, then decimal
    digits only; out of range is an error. *)
Definition digit_of (c : ascii) : option Z :=
  let n := Z.of_nat (nat_of_ascii c) in
  if (48 <=? n)%Z && (n <=? 57)%Z then Some (n - 48)%Z else None.

Fixpoint parse_digits (s : string) (acc : Z) : option Z :=
  match s with
  | EmptyString => Some acc
  | String ch rest =>
      match digit_of ch with
      | Some d => parse_digits rest (10 * acc + d)%Z
      | None => None
      end
  end.

Definition Atoi (s : string) : option Z :=
  let '(neg, body) :=
    match s with
    | String "-"%char rest => (true, rest)
    | String "+"%char rest => (false, rest)
    | _ => (false, s)
    end in
  match body with
  | EmptyString => None
  | _ =>
      match parse_digits body 0 with
      | Some n =>
          let v := if (neg : bool) then (- n)%Z else n in
          if (- 2 ^ 63 <=? v)%Z && (v <=? 2 ^ 63 - 1)%Z then Some v else None
      | None => None
      end
  end.

Definition lowerBasicLit (Kind : Token) (Val : string) : M Value :=
  match Kind with
  | INT =>
      match Atoi Val with
      | Some value => ret (FromInt value)
      | None => fail NumError
      end
  | STRING =>
      (* node.Value[1 : len(node.Value)-1] *)
      if (String.length Val <? 2)%nat
      then panic "slice bounds out of range"
      else ret (FromString (substring 1 (String.length Val - 2) Val))
  | _ => fail (NotImplemented "basic lit kind unsupported")
  end.

Definition lowerIndexExpr : M Value :=
  fail (BadParameter "maps are not supported").

Fixpoint evaluateSelector (X : Expr) (Sel : string) (fields : list string)
  : error + list string :=
  let fields := Sel :: fields in
  match X with
  | SelectorExpr X' Sel' => evaluateSelector X' Sel' fields
  | Ident name => inr (name :: fields)
  | _ => inl (BadParameter "unsupported selector type")
  end.

Definition lowerSelectorExpr (X : Expr) (Sel : string) : M Value :=
  match evaluateSelector X Sel [] with
  | inl err => fail err
  | inr fields => resolve fields
  end.

Definition lowerIdent (Name : string) : M Value :=
  if String.eqb Name "true" then ret (FromBool true)
  else if String.eqb Name "false" then ret (FromBool true)
  else resolve [Name].

Definition lowerCallExpr : M Value :=
  fail (BadParameter "fn calls are not supported").

(** [lowerBinary] and [lowerUnary], parameterised by the recursive call. *)
Definition lowerBinary (lower : Expr -> M Value) (X : Expr) (Op : Token) (Y : Expr)
  : M Value :=
  x <- lower X ;;;
  y <- lower Y ;;;
  match Op with
  | EQL =>
      ty <- pickType x y ;;;
      match ty with
      | KindInt => xi <- asInt x ;;; yi <- asInt y ;;; ret (Eq xi yi)
      | KindBool => xb <- asBool x ;;; yb <- asBool y ;;; ret (Eq xb yb)
      | KindString => xs <- asString x ;;; ys <- asString y ;;; ret (Eq xs ys)
      | _ => fail (BadParameter "type does not support equals")
      end
  | LSS => xi <- asInt x ;;; yi <- asInt y ;;; ret (LT xi yi)
  | LEQ => xi <- asInt x ;;; yi <- asInt y ;;; ret (LE xi yi)
  | GTR => xi <- asInt x ;;; yi <- asInt y ;;; ret (GT xi yi)
  | GEQ => xi <- asInt x ;;; yi <- asInt y ;;; ret (GE xi yi)
  | LAND => xb <- asBool x ;;; yb <- asBool y ;;; ret (And xb yb)
  | LOR => xb <- asBool x ;;; yb <- asBool y ;;; ret (Or xb yb)
  | _ => fail (NotImplemented "unary op unsupported")
  end.

Definition lowerUnary (lower : Expr -> M Value) (Op : Token) (X : Expr) : M Value :=
  match Op with
  | NOT => x <- lower X ;;; xb <- asBool x ;;; ret (Not xb)
  | _ => fail (NotImplemented "unary op unsupported")
  end.

Fixpoint lower (node : Expr) : M Value :=
  match node with
  | ParenExpr X => lower X
  | BinaryExpr X Op Y => lowerBinary lower X Op Y
  | UnaryExpr Op X => lowerUnary lower Op X
  | BasicLit Kind Val => lowerBasicLit Kind Val
  | IndexExpr _ _ => lowerIndexExpr
  | SelectorExpr X Sel => lowerSelectorExpr X Sel
  | Ident Name => lowerIdent Name
  | CallExpr _ _ => lowerCallExpr
  | ForeignExpr => fail (NotImplemented "node type unsupported")
  end.

(** The context [partialSolveForAllImpl] builds: an empty table over
    the solver's assertion stack. *)
Definition freshCtx (s : list Value) (ty : Sort) (r : Resolver) : ctx :=
  {| solver := s; idents := ∅; unkTy := ty; resolveIdentifier := r |}.

(** *** The enumeration loop and its entry points *)

Section Solve.

(** [parser.ParseExpr] of go/parser. *)
Variable ParseExpr : string -> Expr + error.

(** The engine behind [ctx.solver.Check()] and [ctx.solver.Model()],
    as a function of the assertion stack it is asked about. *)
Variable Check : list Value -> CheckResult.

(** The [for { ... }] loop of [partialSolveForAllImpl]; [fuel] bounds the
    number of iterations, [None] is a loop that has not returned yet. *)
Fixpoint enumerate (fuel : nat) (c : ctx) (querying : string) (out : list Value)
  : option (result (list Value) * ctx) :=
  match fuel with
  | O => None
  | S fuel' =>
      match Check (solver c) with
      | CheckError => Some (Err SolverError, c)
      | Unsat => Some (Ok out, c)
      | Sat model =>
          match idents c !! querying with
          | None => Some (Err (NotFound "identifier not found"), c)
          | Some val =>
              let last := Model_Eval model val in
              let out := out ++ [last] in
              let neq := Distinct val last in
              enumerate fuel' (Assert neq c) querying out
          end
      end
  end.

(** The [switch to] that picks the sort of the unknown. *)
Definition sortOfType (to : Z) : option Sort :=
  if (to =? TypeInt)%Z then Some IntSort
  else if (to =? TypeBool)%Z then Some BoolSort
  else if (to =? TypeString)%Z then Some StringSort
  else None.

(** [defer ctx.solver.Reset()], applied to whatever the body returns. *)
Definition deferReset (r : option (result (list Value) * ctx))
  : option (result (list Value) * list Value) :=
  match r with
  | Some (x, c) => Some (x, solver (Reset c))
  | None => None
  end.

(** [partialSolveForAllImpl]; [s] is the assertion stack of [s.solver] on
    entry, the second component of the answer the stack on return. *)
Definition partialSolveForAllImpl (fuel : nat) (s : list Value)
    (predicate : string) (resolveIdentifier : Resolver)
    (querying : string) (to : Z)
  : option (result (list Value) * list Value) :=
  match ParseExpr predicate with
  | inr err => Some (Err err, s)
  | inl tree =>
      let c := freshCtx s NilSort resolveIdentifier in
      deferReset
        match sortOfType to with
        | None => Some (Err (BadParameter "unsupported output type"), c)
        | Some ty =>
            let c := set_unkTy c ty in
            match lower tree c with
            | (Err e, c) => Some (Err e, c)
            | (Panics msg, c) => Some (Panics msg, c)
            | (Ok cond, c) =>
                match asBool cond c with
                | (Err e, c) => Some (Err e, c)
                | (Panics msg, c) => Some (Panics msg, c)
                | (Ok b, c) => enumerate fuel (Assert b c) querying []
                end
            end
        end
  end.

(** The [select] of [PartialSolveForAll]. Every case is taken after the
    goroutine has left [partialSolveForAllImpl]: the two channels are
    written and closed after it returns, and the timer case waits on
    [outCh]. A receive from a closed channel yields the zero value. *)
Inductive selectCase : Type :=
| caseOut | caseErr | caseTimer.

Definition deliver (branch : selectCase) (r : result (list Value))
  : result (list Value) :=
  match r with
  | Panics msg => Panics msg
  | Ok out =>
      match branch with
      | caseOut => Ok out
      | caseErr => Ok []
      | caseTimer => Err (LimitExceeded "timeout")
      end
  | Err e =>
      match branch with
      | caseOut => Ok []
      | caseErr => Err e
      | caseTimer => Err (LimitExceeded "timeout")
      end
  end.

Definition PartialSolveForAll (fuel : nat) (s : list Value)
    (predicate : string) (resolveIdentifier : Resolver)
    (querying : string) (to : Z) (branch : selectCase)
  : option (result (list Value) * list Value) :=
  match partialSolveForAllImpl fuel s predicate resolveIdentifier querying to with
  | Some (r, s') => Some (deliver branch r, s')
  | None => None
  end.

End Solve.

(** The engine answers [Sat] only with a model of the whole stack. *)
Definition engine_sound (Check : list Value -> CheckResult) : Prop :=
  forall stack m, Check stack = Sat m ->
    forall a, a ∈ stack -> holds m a = true.

(** The engine always decides. *)
Definition engine_decides (Check : list Value -> CheckResult) : Prop :=
  forall stack, Check stack <> CheckError.

(** *** Direct evaluation of a predicate, following the specification

    The grammar of the specification: literals, the reserved identifiers
    [true] and [false], identifier paths, [!], the comparisons, [&&] and
    [||]; an environment gives the value of a path. *)

Fixpoint evalDirect (env : list string -> option scalar) (e : Expr)
  : option scalar :=
  match e with
  | ParenExpr X => evalDirect env X
  | BasicLit INT v =>
      match Atoi v with
      | Some z => Some (SInt z)
      | None => None
      end
  | BasicLit STRING v => Some (SStr (substring 1 (String.length v - 2) v))
  | Ident Name =>
      if String.eqb Name "true" then Some (SBool true)
      else if String.eqb Name "false" then Some (SBool false)
      else env [Name]
  | SelectorExpr X Sel =>
      match evaluateSelector X Sel [] with
      | inr fields => env fields
      | inl _ => None
      end
  | UnaryExpr NOT X =>
      match evalDirect env X with
      | Some (SBool b) => Some (SBool (negb b))
      | _ => None
      end
  | BinaryExpr X EQL Y => eq_rel false (evalDirect env X) (evalDirect env Y)
  | BinaryExpr X LSS Y => int_rel Z.ltb (evalDirect env X) (evalDirect env Y)
  | BinaryExpr X LEQ Y => int_rel Z.leb (evalDirect env X) (evalDirect env Y)
  | BinaryExpr X GTR Y => int_rel Z.gtb (evalDirect env X) (evalDirect env Y)
  | BinaryExpr X GEQ Y => int_rel Z.geb (evalDirect env X) (evalDirect env Y)
  | BinaryExpr X LAND Y => bool_rel andb (evalDirect env X) (evalDirect env Y)
  | BinaryExpr X LOR Y => bool_rel orb (evalDirect env X) (evalDirect env Y)
  | _ => None
  end.

Definition scalarOf (v : Value) : option scalar :=
  match v with
  | FromInt z => Some (SInt z)
  | FromBool b => Some (SBool b)
  | FromString s => Some (SStr s)
  | _ => None
  end.

(** The query path is given the value [v], every other path the value
    the resolver knows for it. *)
Definition substitute (resolveIdentifier : Resolver) (querying : string)
    (v : Value) : list string -> option scalar :=
  fun fields =>
    if String.eqb (Join fields ".") querying then scalarOf v
    else
      match resolveIdentifier fields with
      | anyInt z => Some (SInt z)
      | anyString s => Some (SStr s)
      | anyBool b => Some (SBool b)
      | _ => None
      end.

(** *** A reference engine for the examples

    Exhaustive search: every constant of the stack ranges over the
    literals of the stack and their neighbours. *)

Definition Sort_eqb (a b : Sort) : bool :=
  Kind_eqb (Sort_Kind a) (Sort_Kind b).

Fixpoint constsOf (v : Value) : list (string * Sort) :=
  match v with
  | Const n s => [(n, s)]
  | Eq x y | Distinct x y | LT x y | LE x y | GT x y | GE x y
  | And x y | Or x y => constsOf x ++ constsOf y
  | Not x => constsOf x
  | _ => []
  end.

Fixpoint intsOf (v : Value) : list Z :=
  match v with
  | FromInt z => [z]
  | Eq x y | Distinct x y | LT x y | LE x y | GT x y | GE x y
  | And x y | Or x y => intsOf x ++ intsOf y
  | Not x => intsOf x
  | _ => []
  end.

Fixpoint stringsOf (v : Value) : list string :=
  match v with
  | FromString s => [s]
  | Eq x y | Distinct x y | LT x y | LE x y | GT x y | GE x y
  | And x y | Or x y => stringsOf x ++ stringsOf y
  | Not x => stringsOf x
  | _ => []
  end.

Definition const_eqb (a b : string * Sort) : bool :=
  String.eqb (fst a) (fst b) && Sort_eqb (snd a) (snd b).

Fixpoint dedup (l : list (string * Sort)) : list (string * Sort) :=
  match l with
  | [] => []
  | x :: rest =>
      if existsb (const_eqb x) rest then dedup rest else x :: dedup rest
  end.

Definition candidates (stack : list Value) (s : Sort) : list scalar :=
  match s with
  | IntSort =>
      map SInt (0%Z :: flat_map (fun z => [z - 1; z; z + 1]%Z)
                         (flat_map intsOf stack))
  | BoolSort => [SBool true; SBool false]
  | StringSort => map SStr ("" :: flat_map stringsOf stack)
  | NilSort => []
  end.

Fixpoint bindings (stack : list Value) (cs : list (string * Sort))
  : list (list (string * scalar)) :=
  match cs with
  | [] => [[]]
  | (n, s) :: rest =>
      flat_map (fun v => map (cons (n, v)) (bindings stack rest))
               (candidates stack s)
  end.

Fixpoint lookupInt (bs : list (string * scalar)) (n : string) : Z :=
  match bs with
  | [] => 0%Z
  | (k, SInt z) :: rest => if String.eqb k n then z else lookupInt rest n
  | _ :: rest => lookupInt rest n
  end.

Fixpoint lookupBool (bs : list (string * scalar)) (n : string) : bool :=
  match bs with
  | [] => false
  | (k, SBool b) :: rest => if String.eqb k n then b else lookupBool rest n
  | _ :: rest => lookupBool rest n
  end.

Fixpoint lookupStr (bs : list (string * scalar)) (n : string) : string :=
  match bs with
  | [] => ""
  | (k, SStr s) :: rest => if String.eqb k n then s else lookupStr rest n
  | _ :: rest => lookupStr rest n
  end.

Definition modelOf (bs : list (string * scalar)) : Model :=
  {| m_int := lookupInt bs; m_bool := lookupBool bs; m_str := lookupStr bs |}.

Definition searchCheck (stack : list Value) : CheckResult :=
  match find (fun m => forallb (holds m) stack)
             (map modelOf (bindings stack (dedup (flat_map constsOf stack)))) with
  | Some m => Sat m
  | None => Unsat
  end.

(** The trees go/parser builds for the predicates of the examples. *)
Definition exampleParse (predicate : string) : Expr + error :=
  if String.eqb predicate "age >= 18 && age < 21" then
    inl (BinaryExpr
           (BinaryExpr (Ident "age") GEQ (BasicLit INT "18")) LAND
           (BinaryExpr (Ident "age") LSS (BasicLit INT "21")))
  else if String.eqb predicate "x == false" then
    inl (BinaryExpr (Ident "x") EQL (Ident "false"))
  else if String.eqb predicate "1 == 2" then
    inl (BinaryExpr (BasicLit INT "1") EQL (BasicLit INT "2"))
  else if String.eqb predicate "x == 5" then
    inl (BinaryExpr (Ident "x") EQL (BasicLit INT "5"))
  else if String.eqb predicate "y" then
    inl (Ident "y")
  else inr ParseError.

(** *** Notions used to state properties of the lowering *)

Definition sortOfScalar (a : scalar) : Sort :=
  match a with
  | SInt _ => IntSort
  | SBool _ => BoolSort
  | SStr _ => StringSort
  end.

(** A term the binding accepts: operands of the sorts each operator
    needs, no constant of the zero sort. *)
Fixpoint wellSorted (v : Value) : bool :=
  match v with
  | FromInt _ | FromBool _ | FromString _ => true
  | Const _ s => negb (Sort_eqb s NilSort)
  | Eq x y | Distinct x y =>
      wellSorted x && wellSorted y && Sort_eqb (Value_Sort x) (Value_Sort y)
  | LT x y | LE x y | GT x y | GE x y =>
      wellSorted x && wellSorted y &&
      Sort_eqb (Value_Sort x) IntSort && Sort_eqb (Value_Sort y) IntSort
  | And x y | Or x y =>
      wellSorted x && wellSorted y &&
      Sort_eqb (Value_Sort x) BoolSort && Sort_eqb (Value_Sort y) BoolSort
  | Not x => wellSorted x && Sort_eqb (Value_Sort x) BoolSort
  end.

(** The table holds well-sorted terms and the unknown has a real sort. *)
Definition tableOk (c : ctx) : Prop :=
  unkTy c <> NilSort /\
  forall k v, idents c !! k = Some v -> wellSorted v = true.

(** What lowering may change of a context: it adds entries to the
    table and nothing else. *)
Definition extends (c c' : ctx) : Prop :=
  solver c' = solver c /\ unkTy c' = unkTy c /\
  resolveIdentifier c' = resolveIdentifier c /\
  forall k v, idents c !! k = Some v -> idents c' !! k = Some v.

(** A computation that only extends the context. *)
Definition extending {A : Type} (x : M A) : Prop :=
  forall c, extends c (snd (x c)).

(** A function call or an index expression somewhere in the tree. *)
Fixpoint hasCallOrIndex (e : Expr) : bool :=
  match e with
  | CallExpr _ _ | IndexExpr _ _ => true
  | ParenExpr X | UnaryExpr _ X | SelectorExpr X _ => hasCallOrIndex X
  | BinaryExpr X _ Y => hasCallOrIndex X || hasCallOrIndex Y
  | _ => false
  end.

(** The tree go/parser builds for the dotted path [root.s1.s2...]. *)
Definition selectorChain (root : string) (sels : list string) : Expr :=
  fold_left SelectorExpr sels (Ident root).

(** The operand sort the type assertions of a binary operator demand,
    and the term the operator builds. *)
Definition operandSort (op : Token) : option Sort :=
  match op with
  | LSS | LEQ | GTR | GEQ => Some IntSort
  | LAND | LOR => Some BoolSort
  | _ => None
  end.

Definition binaryTerm (op : Token) (x y : Value) : Value :=
  match op with
  | LSS => LT x y
  | LEQ => LE x y
  | GTR => GT x y
  | GEQ => GE x y
  | LAND => And x y
  | LOR => Or x y
  | _ => Eq x y
  end.

(** An [Unsat] answer of the engine is right: no model satisfies the
    whole stack. *)
Definition engine_refutes (Check : list Value -> CheckResult) : Prop :=
  forall stack, Check stack = Unsat ->
    forall m, exists a, a ∈ stack /\ holds m a = false.

(** *** A second reference engine, with justified [Unsat] answers

    It answers [Unsat] only when the stack holds an equation together
    with the disequation of the same two terms, and otherwise reports
    what the search finds. *)
#[global] Instance Sort_eq_dec : EqDecision Sort.
Proof. solve_decision. Defined.

#[global] Instance Value_eq_dec : EqDecision Value.
Proof. solve_decision. Defined.

Definition contradicts (a b : Value) : bool :=
  match a, b with
  | Eq x y, Distinct x' y' => bool_decide (x = x') && bool_decide (y = y')
  | _, _ => false
  end.

Definition refuted (stack : list Value) : bool :=
  existsb (fun a => existsb (contradicts a) stack) stack.

Definition refutingCheck (stack : list Value) : CheckResult :=
  if refuted stack then Unsat
  else match searchCheck stack with
       | Sat m => Sat m
       | _ => CheckError
       end.

(** *** The states a [Solver] can be in between calls

    [NewSolver] starts with an empty assertion stack; the fields of
    [Solver] are unexported, so afterwards the stack changes only
    through [PartialSolveForAll]. Each call may meet its own engine
    behaviour (an interrupted engine answers [CheckError]). *)
Definition NewSolver : list Value := [].

Inductive reachable (ParseExpr : string -> Expr + error) : list Value -> Prop :=
| reach_new : reachable ParseExpr NewSolver
| reach_call (s : list Value) (Check : list Value -> CheckResult)
    (fuel : nat) (predicate : string) (r : Resolver) (q : string) (to : Z)
    (branch : selectCase) (x : result (list Value)) (s' : list Value) :
    reachable ParseExpr s ->
    PartialSolveForAll ParseExpr Check fuel s predicate r q to branch
      = Some (x, s') ->
    reachable ParseExpr s'.

(** The term [resolve] stores for a path with key [k], given what the
    resolver of [c] says about the path. *)
Definition entryFor (c : ctx) (k : string) (v : Value) : Prop :=
  exists fields,
    k = Join fields "." /\
    match resolveIdentifier c fields with
    | anyNil => v = Const k (unkTy c)
    | anyInt z => v = FromInt z
    | anyString s => v = FromString s
    | _ => False
    end.

End Partial.

(** * Properties *)

(** ** The DPLL sketch *)

Section DpllFacts.
Import Dpll.

Lemma evalClause_constant (st : state) (clause : node) :
  evalClause st clause = dpllUnknown.
Proof. reflexivity. Qed.

(** A clause without identifiers never calls [isExcluded]. *)
Lemma pickLiteral_closed (n : node) (isExcluded : string -> outcome bool) :
  wellShaped n = true -> hasIdentifier n = false ->
  pickLiteral n isExcluded = Ret None.
Proof.
  induction n as [b|k|l IHl|l IHl r IHr|l IHl r IHr|]; simpl; intros Hw Hi;
    try discriminate; auto.
  - apply andb_true_iff in Hw as [Hwl Hwr].
    apply orb_false_iff in Hi as [Hil Hir].
    rewrite IHl, IHr by assumption. reflexivity.
  - apply andb_true_iff in Hw as [Hwl Hwr].
    apply orb_false_iff in Hi as [Hil Hir].
    rewrite IHl, IHr by assumption. reflexivity.
Qed.

(** With nothing excluded, a well-shaped node yields a pointer exactly
    when it has an identifier. *)
Lemma pickLiteral_all (n : node) :
  wellShaped n = true ->
  exists p, pickLiteral n (fun _ => Ret false) = Ret p /\
            (hasIdentifier n = true <-> p <> None).
Proof.
  induction n as [b|k|l IHl|l IHl r IHr|l IHl r IHr|]; simpl; intros Hw;
    try discriminate.
  - exists None. split; [reflexivity|]. split; [discriminate|congruence].
  - exists (Some k). split; [reflexivity|]. split; [discriminate|reflexivity].
  - auto.
  - apply andb_true_iff in Hw as [Hwl Hwr].
    destruct (IHl Hwl) as (pl & -> & Hl), (IHr Hwr) as (pr & -> & Hr). simpl.
    exists (or_ptr pl pr). split; [reflexivity|].
    rewrite orb_true_iff, Hl, Hr. destruct pl, pr; simpl; intuition congruence.
  - apply andb_true_iff in Hw as [Hwl Hwr].
    destruct (IHl Hwl) as (pl & -> & Hl), (IHr Hwr) as (pr & -> & Hr). simpl.
    exists (or_ptr pl pr). split; [reflexivity|].
    rewrite orb_true_iff, Hl, Hr. destruct pl, pr; simpl; intuition congruence.
Qed.

(** A clause with an identifier lands in [enforce]. *)
Lemma newState_with_identifier (clause : node) :
  wellShaped clause = true -> hasIdentifier clause = true ->
  newState clause =
    Ret {| clauses := [clause]; assignments := []; watched := ∅;
           enforce := [clause]; uprop := [] |}.
Proof.
  intros Hw Hi. unfold newState. simpl.
  destruct (pickLiteral_all clause Hw) as (p & -> & Hp). simpl.
  destruct p as [k|]; [reflexivity|].
  apply Hp in Hi. congruence.
Qed.

(** C9 (as the code has it): [evalClause] does not look at the
    assignment. With [a] assigned [true], the clause [a || !b] has a
    literal matching its assigned polarity, so three-valued evaluation
    gives [dpllSatisfied]; [evalClause] answers [dpllUnknown]. *)
Theorem evalClause_misses_satisfied :
  let st := {| clauses := [nodeOr (nodeIdentifier "a") (nodeNot (nodeIdentifier "b"))];
               assignments := [mkAssignment "a" true];
               watched := ∅; enforce := []; uprop := [] |} in
  let clause := nodeOr (nodeIdentifier "a") (nodeNot (nodeIdentifier "b")) in
  evalClause st clause = dpllUnknown /\
  evalClause_spec st clause = Some dpllSatisfied /\
  evalClause st clause <> dpllSatisfied.
Proof. repeat split. discriminate. Qed.

(** C10 (as the code has it): for a clause without any identifier the
    first [pickLiteral] returns nil, the branch for a non-nil pointer is
    skipped, and [newState] dereferences the nil pointer: it panics. *)
Theorem newState_panics_without_identifier (clause : node) :
  wellShaped clause = true -> hasIdentifier clause = false ->
  newState clause = Panic "invalid memory address or nil pointer dereference".
Proof.
  intros Hw Hi. unfold newState. simpl.
  rewrite (pickLiteral_closed clause _ Hw Hi). simpl.
  rewrite (pickLiteral_closed clause _ Hw Hi). reflexivity.
Qed.

Lemma newState_panics_without_identifier_witness :
  newState (nodeOr (nodeLiteral true) (nodeNot (nodeLiteral false))) =
  Panic "invalid memory address or nil pointer dereference".
Proof.
  apply (newState_panics_without_identifier
           (nodeOr (nodeLiteral true) (nodeNot (nodeLiteral false))));
    reflexivity.
Defined.

End DpllFacts.

(** ** Lowering of identifiers *)

Section ResolveFacts.
Import token ast z3 Partial.


(** [resolve] leaves the assertion stack, the sort of the unknown and
    the resolver as they are. *)
Lemma resolve_frame (c : ctx) (fields : list string) :
  solver (snd (resolve fields c)) = solver c /\
  unkTy (snd (resolve fields c)) = unkTy c /\
  resolveIdentifier (snd (resolve fields c)) = resolveIdentifier c.
Proof.
  unfold resolve.
  destruct (idents c !! Join fields "."); [auto|].
  destruct (resolveIdentifier c fields); auto.
Qed.

(** C2 (as the code has it): the identifier [true] lowers to the
    constant true, and so does the identifier [false]: both cases of
    [lowerIdent] return [FromBool(true)]. The constant false is never
    produced. *)
Theorem lowerIdent_false_lowers_to_true (c : ctx) :
  lowerIdent "true" c = (Ok (FromBool true), c) /\
  lowerIdent "false" c = (Ok (FromBool true), c) /\
  fst (lowerIdent "false" c) <> Ok (FromBool false).
Proof. repeat split. discriminate. Qed.

(** C3, refuted as stated: a resolver that knows the query path [x]
    turns it into a constant. Querying [x] with the declared type
    [TypeInt] and a resolver answering 7, lowering the identifier gives
    the numeral 7 and stores it under [x]; no variable of the query sort
    is created. *)
Lemma query_known_to_resolver_is_constant :
  let c := freshCtx [] IntSort (fun _ => anyInt 7) in
  fst (lower (Ident "x") c) = Ok (FromInt 7) /\
  idents (snd (lower (Ident "x") c)) !! "x" = Some (FromInt 7) /\
  fst (lower (Ident "x") c) <> Ok (Const "x" IntSort).
Proof. repeat split. discriminate. Qed.

(** C3, as amended: a path lowered for the first time, the query path
    like any other, is bound in the table to the free variable of the
    declared sort of the query when the resolver reports it unknown,
    and to the Int or String constant of the value when the resolver
    knows an int or a string for it; the term returned is the free
    variable exactly when the resolver reports the path unknown. *)
Theorem resolve_free_iff_unknown (c : ctx) (fields : list string) :
  idents c !! Join fields "." = None ->
  (resolveIdentifier c fields = anyNil ->
   resolve fields c =
     (Ok (Const (Join fields ".") (unkTy c)),
      set_idents c (<[Join fields "." := Const (Join fields ".") (unkTy c)]>
                      (idents c)))) /\
  (forall z, resolveIdentifier c fields = anyInt z ->
   resolve fields c =
     (Ok (FromInt z),
      set_idents c (<[Join fields "." := FromInt z]> (idents c)))) /\
  (forall str, resolveIdentifier c fields = anyString str ->
   resolve fields c =
     (Ok (FromString str),
      set_idents c (<[Join fields "." := FromString str]> (idents c)))) /\
  (forall v, fst (resolve fields c) = Ok v ->
   idents (snd (resolve fields c)) !! Join fields "." = Some v) /\
  (fst (resolve fields c) = Ok (Const (Join fields ".") (unkTy c)) <->
   resolveIdentifier c fields = anyNil).
Proof.
  intros Hnew. unfold resolve. rewrite Hnew.
  split; [intros ->; reflexivity|].
  split; [intros z ->; reflexivity|].
  split; [intros str ->; reflexivity|].
  split.
  - intros v. destruct (resolveIdentifier c fields); simpl; intros H;
      try discriminate; injection H as <-; apply lookup_insert_eq.
  - destruct (resolveIdentifier c fields); simpl; split; intros H;
      try reflexivity; try discriminate.
Qed.

Lemma resolve_free_iff_unknown_witness :
  ((fun _ : list string => anyInt 7) ["x"] = anyNil ->
   resolve ["x"] (freshCtx [] IntSort (fun _ => anyInt 7)) =
     (Ok (Const "x" IntSort),
      set_idents (freshCtx [] IntSort (fun _ => anyInt 7))
                 (<["x" := Const "x" IntSort]> ∅))) /\
  (forall z, (fun _ : list string => anyInt 7) ["x"] = anyInt z ->
   resolve ["x"] (freshCtx [] IntSort (fun _ => anyInt 7)) =
     (Ok (FromInt z),
      set_idents (freshCtx [] IntSort (fun _ => anyInt 7))
                 (<["x" := FromInt z]> ∅))) /\
  (forall str, (fun _ : list string => anyInt 7) ["x"] = anyString str ->
   resolve ["x"] (freshCtx [] IntSort (fun _ => anyInt 7)) =
     (Ok (FromString str),
      set_idents (freshCtx [] IntSort (fun _ => anyInt 7))
                 (<["x" := FromString str]> ∅))) /\
  (forall v, fst (resolve ["x"] (freshCtx [] IntSort (fun _ => anyInt 7))) = Ok v ->
   idents (snd (resolve ["x"] (freshCtx [] IntSort (fun _ => anyInt 7)))) !! "x"
     = Some v) /\
  (fst (resolve ["x"] (freshCtx [] IntSort (fun _ => anyInt 7)))
     = Ok (Const "x" IntSort) <->
   (fun _ : list string => anyInt 7) ["x"] = anyNil).
Proof.
  apply (resolve_free_iff_unknown (freshCtx [] IntSort (fun _ => anyInt 7)) ["x"]).
  reflexivity.
Defined.

(** C6, refuted as stated: with the query [x] declared [TypeInt], the
    other unknown identifier [y], used where no operator fixes a sort,
    is lowered without error to a variable of the query's sort. *)
Lemma other_unknown_takes_query_sort :
  let c := freshCtx [] IntSort (fun _ => anyNil) in
  lower (Ident "y") c =
    (Ok (Const "y" IntSort), set_idents c (<["y" := Const "y" IntSort]> ∅)) /\
  (forall e, fst (lower (Ident "y") c) <> Err e).
Proof. split; [reflexivity|]. intros e. discriminate. Qed.

(** C7, refuted as stated: a path the resolver knows as the boolean
    [true] does not lower to a Bool constant; [resolve] fails with
    BadParameter and stores nothing. *)
Lemma known_bool_is_rejected :
  let c := freshCtx [] BoolSort (fun _ => anyBool true) in
  resolve ["flag"] c = (Err (BadParameter "unsupported type"), c) /\
  fst (resolve ["flag"] c) <> Ok (FromBool true).
Proof. split; [reflexivity|discriminate]. Qed.

(** C7, as amended: on first use a path known as an int lowers to an
    Int constant and one known as a string to a String constant, and the
    constant is stored in the table; every other known value, a bool
    among them, is rejected with BadParameter and nothing is stored. *)
Theorem resolve_known (c : ctx) (fields : list string) :
  idents c !! Join fields "." = None ->
  resolveIdentifier c fields <> anyNil ->
  match resolveIdentifier c fields with
  | anyInt v =>
      resolve fields c =
        (Ok (FromInt v), set_idents c (<[Join fields "." := FromInt v]> (idents c)))
      /\ Value_Sort (FromInt v) = IntSort
  | anyString s =>
      resolve fields c =
        (Ok (FromString s),
         set_idents c (<[Join fields "." := FromString s]> (idents c)))
      /\ Value_Sort (FromString s) = StringSort
  | _ => resolve fields c = (Err (BadParameter "unsupported type"), c)
  end.
Proof.
  intros Hnew Hknown. unfold resolve. rewrite Hnew.
  destruct (resolveIdentifier c fields); try (split; reflexivity);
    try reflexivity.
  congruence.
Qed.

Lemma resolve_known_witness :
  resolve ["n"] (freshCtx [] IntSort (fun _ => anyInt 3)) =
    (Ok (FromInt 3),
     set_idents (freshCtx [] IntSort (fun _ => anyInt 3))
                (<["n" := FromInt 3]> ∅))
  /\ Value_Sort (FromInt 3) = IntSort.
Proof.
  apply (resolve_known (freshCtx [] IntSort (fun _ => anyInt 3)) ["n"]).
  - reflexivity.
  - simpl. discriminate.
Defined.

End ResolveFacts.

(** ** The engine and the enumeration loop *)

Section EngineFacts.
Import token ast z3 Partial.

Lemma scalar_eqb_refl (a : scalar) : scalar_eqb a a = Some true.
Proof.
  destruct a; simpl; f_equal.
  - apply Z.eqb_refl.
  - apply Bool.eqb_reflx.
  - apply String.eqb_refl.
Qed.

Lemma eval_lit (m : Model) (a : scalar) : eval m (lit a) = Some a.
Proof. destruct a; reflexivity. Qed.

(** No model separates a term from the value the same model gives it:
    the blocking constraint excludes the model it was read from. *)
Lemma blocking_excludes_model (m : Model) (val : Value) :
  holds m (Distinct val (Model_Eval m val)) = false.
Proof.
  unfold holds, Model_Eval. simpl.
  destruct (eval m val) as [a|] eqn:E; simpl.
  - rewrite eval_lit. simpl. rewrite scalar_eqb_refl. reflexivity.
  - try rewrite E. reflexivity.
Qed.

(** The reference engine answers [Sat] with a model it has checked. *)
Lemma searchCheck_sound : engine_sound searchCheck.
Proof.
  intros stack m H a Ha. unfold searchCheck in H.
  destruct (find _ _) as [m'|] eqn:F; [|discriminate].
  injection H as ->. apply find_some in F as [_ F].
  rewrite forallb_forall in F. apply F. by apply list_elem_of_In.
Qed.

Lemma searchCheck_decides : engine_decides searchCheck.
Proof.
  intros stack. unfold searchCheck. destruct (find _ _); discriminate.
Qed.

Section Loop.
Variable ParseExpr : string -> Expr + error.
Variable Check : list Value -> CheckResult.

(** The loop reports NotFound only for a path missing from the table. *)
Lemma enumerate_NotFound (fuel : nat) :
  forall c q out msg c',
    enumerate Check fuel c q out = Some (Err (NotFound msg), c') ->
    idents c !! q = None.
Proof.
  induction fuel as [|fuel IH]; intros c q out msg c' H; simpl in H;
    [discriminate|].
  destruct (Check (solver c)); try discriminate.
  destruct (idents c !! q) eqn:Hq; [|reflexivity].
  apply IH in H. simpl in H. congruence.
Qed.

(** An unsatisfiable first check ends the loop before the table is
    looked at. *)
Lemma enumerate_unsat (fuel : nat) (c : ctx) (q : string) (out : list Value) :
  Check (solver c) = Unsat ->
  enumerate Check (S fuel) c q out = Some (Ok out, c).
Proof. intros H. simpl. rewrite H. reflexivity. Qed.

(** One turn of the loop on a satisfiable stack. *)
Lemma enumerate_sat (fuel : nat) (c : ctx) (q : string) (out : list Value)
    (m : Model) (val : Value) :
  Check (solver c) = Sat m ->
  idents c !! q = Some val ->
  enumerate Check (S fuel) c q out =
  enumerate Check fuel (Assert (Distinct val (Model_Eval m val)) c) q
            (out ++ [Model_Eval m val]).
Proof. intros H Hq. simpl. rewrite H, Hq. reflexivity. Qed.

Hypothesis Check_sound : engine_sound Check.

(** Every value already collected is blocked on the stack, hence the
    next one differs from all of them. *)
Lemma enumerate_NoDup (fuel : nat) :
  forall c q out res c',
    (forall val v, idents c !! q = Some val -> v ∈ out ->
                   Distinct val v ∈ solver c) ->
    NoDup out ->
    enumerate Check fuel c q out = Some (Ok res, c') ->
    NoDup res.
Proof.
  induction fuel as [|fuel IH]; intros c q out res c' Hblk Hnd H; simpl in H;
    [discriminate|].
  destruct (Check (solver c)) as [m| |] eqn:HC; try discriminate.
  - destruct (idents c !! q) as [val|] eqn:Hq; [|discriminate].
    eapply IH; [| |exact H].
    + simpl. intros val' v Hval Hin. rewrite Hq in Hval. injection Hval as <-.
      apply elem_of_app in Hin as [Hin|Hin]; apply elem_of_app.
      * left. by apply Hblk.
      * right. apply list_elem_of_singleton in Hin as ->.
        by apply list_elem_of_singleton.
    + apply NoDup_app. split; [assumption|]. split; [|apply NoDup_singleton].
      intros x Hx Hx'. apply list_elem_of_singleton in Hx' as ->.
      pose proof (Check_sound _ _ HC _ (Hblk _ _ eq_refl Hx)) as Hh.
      rewrite blocking_excludes_model in Hh. discriminate.
  - injection H as <- <-. assumption.
Qed.

(** Every value collected was read from a model of the stack the loop
    started with. *)
Lemma enumerate_from_models (fuel : nat) (stack0 : list Value) :
  forall c q out res c',
    (forall a, a ∈ stack0 -> a ∈ solver c) ->
    (forall v, v ∈ out -> exists m val,
        idents c !! q = Some val /\ Model_Eval m val = v /\
        forall a, a ∈ stack0 -> holds m a = true) ->
    enumerate Check fuel c q out = Some (Ok res, c') ->
    forall v, v ∈ res -> exists m val,
        idents c !! q = Some val /\ Model_Eval m val = v /\
        forall a, a ∈ stack0 -> holds m a = true.
Proof.
  induction fuel as [|fuel IH]; intros c q out res c' Hsub Hout H; simpl in H;
    [discriminate|].
  destruct (Check (solver c)) as [m| |] eqn:HC; try discriminate.
  - destruct (idents c !! q) as [val|] eqn:Hq; [|discriminate].
    set (c1 := Assert (Distinct val (Model_Eval m val)) c) in *.
    assert (Hsub' : forall a, a ∈ stack0 -> a ∈ solver c1).
    { intros a Ha. simpl. apply elem_of_app. left. auto. }
    assert (Hout' : forall v, v ∈ out ++ [Model_Eval m val] ->
              exists m' val', idents c1 !! q = Some val' /\
                Model_Eval m' val' = v /\
                forall a, a ∈ stack0 -> holds m' a = true).
    { simpl. rewrite Hq. intros v Hv.
      apply elem_of_app in Hv as [Hv|Hv]; [by apply Hout|].
      apply list_elem_of_singleton in Hv as ->.
      exists m, val. repeat split; auto.
      intros a Ha. eapply Check_sound; eauto. }
    intros v Hv.
    destruct (IH _ _ _ _ _ Hsub' Hout' H v Hv) as (m' & val' & E1 & E2 & E3).
    simpl in E1. rewrite Hq in E1. exists m', val'. auto.
  - injection H as <- <-. assumption.
Qed.

End Loop.
End EngineFacts.

(** ** [partialSolveForAllImpl] and [PartialSolveForAll] *)

Section SolverFacts.
Import token ast z3 Partial.

Variable ParseExpr : string -> Expr + error.
Variable Check : list Value -> CheckResult.

(** After a successful parse the deferred reset empties the stack,
    whatever the body returns. *)
Lemma impl_parsed_resets (fuel : nat) (s : list Value) (predicate : string)
    (r : Resolver) (q : string) (to : Z) (tree : Expr)
    (x : result (list Value)) (s' : list Value) :
  ParseExpr predicate = inl tree ->
  partialSolveForAllImpl ParseExpr Check fuel s predicate r q to = Some (x, s') ->
  s' = [].
Proof.
  intros Hp H. unfold partialSolveForAllImpl in H. rewrite Hp in H.
  unfold deferReset in H.
  destruct (match sortOfType to with Some _ => _ | None => _ end)
    as [[x0 c0]|]; [|discriminate].
  injection H as _ <-. reflexivity.
Qed.

(** A syntax error returns at once, with the stack as it was. *)
Lemma impl_syntax_error (fuel : nat) (s : list Value) (predicate : string)
    (r : Resolver) (q : string) (to : Z) (e : error) :
  ParseExpr predicate = inr e ->
  partialSolveForAllImpl ParseExpr Check fuel s predicate r q to
    = Some (Err e, s).
Proof. intros Hp. unfold partialSolveForAllImpl. rewrite Hp. reflexivity. Qed.

(** Whenever [PartialSolveForAll] returns after a successful parse the
    assertion stack is empty; after a syntax error the stack is the one
    the call started with. *)
Lemma PartialSolveForAll_stack (fuel : nat) (s : list Value)
    (predicate : string) (r : Resolver) (q : string) (to : Z)
    (branch : selectCase) (x : result (list Value)) (s' : list Value) :
  PartialSolveForAll ParseExpr Check fuel s predicate r q to branch
    = Some (x, s') ->
  match ParseExpr predicate with
  | inl _ => s' = []
  | inr _ => s' = s
  end /\ (s = [] -> s' = []).
Proof.
  intros H. unfold PartialSolveForAll in H.
  destruct (partialSolveForAllImpl ParseExpr Check fuel s predicate r q to)
    as [[x0 s0]|] eqn:E; [|discriminate].
  injection H as _ <-.
  destruct (ParseExpr predicate) as [tree|e] eqn:Hp.
  - pose proof (impl_parsed_resets _ _ _ _ _ _ _ _ _ Hp E) as ->. auto.
  - rewrite (impl_syntax_error fuel s _ r q to _ Hp) in E.
    injection E as _ <-. auto.
Qed.

Hypothesis Check_sound : engine_sound Check.

(** C8: the values [partialSolveForAllImpl] returns are pairwise
    different, for every engine that answers [Sat] only with a model of
    the asserted stack. *)
Theorem partialSolveForAllImpl_NoDup (fuel : nat) (s : list Value)
    (predicate : string) (r : Resolver) (q : string) (to : Z)
    (out s' : list Value) :
  partialSolveForAllImpl ParseExpr Check fuel s predicate r q to
    = Some (Ok out, s') ->
  NoDup out.
Proof.
  intros H. unfold partialSolveForAllImpl in H.
  destruct (ParseExpr predicate) as [tree|e]; [|discriminate].
  unfold deferReset in H.
  destruct (sortOfType to) as [ty|]; [|discriminate].
  destruct (lower tree _) as [[cond| |] c1]; try discriminate.
  destruct (asBool cond c1) as [[b| |] c2]; try discriminate.
  destruct (enumerate Check fuel (Assert b c2) q []) as [[x0 c3]|] eqn:E;
    [|discriminate].
  injection H as -> _.
  eapply (enumerate_NoDup Check Check_sound); [| |exact E].
  - intros val v _ Hv. by apply elem_of_nil in Hv.
  - apply NoDup_nil_2.
Qed.

Hypothesis Check_decides : engine_decides Check.

(** C4 (as the code has it): the predicate [1 == 2] mentions no
    identifier, so the query path never appears in the table; the
    formula is unsatisfiable, the loop returns on the first check, and
    the call answers with the empty sequence, not with NotFound. *)
Theorem vacuous_query_on_unsat_formula (fuel : nat) (s : list Value)
    (predicate : string) (r : Resolver) (q : string) :
  ParseExpr predicate = inl (BinaryExpr (BasicLit INT "1") EQL (BasicLit INT "2")) ->
  idents (snd (lower (BinaryExpr (BasicLit INT "1") EQL (BasicLit INT "2"))
                 (freshCtx s IntSort r))) !! q = None /\
  partialSolveForAllImpl ParseExpr Check (S fuel) s predicate r q TypeInt
    = Some (Ok [], []).
Proof.
  intros Hp. split; [reflexivity|].
  unfold partialSolveForAllImpl. rewrite Hp.
  change (sortOfType TypeInt) with (Some IntSort). cbv iota beta.
  change (lower (BinaryExpr (BasicLit INT "1") EQL (BasicLit INT "2"))
            (set_unkTy (freshCtx s NilSort r) IntSort))
    with (@Ok Value (Eq (FromInt 1) (FromInt 2)),
          set_unkTy (freshCtx s NilSort r) IntSort).
  cbv iota beta.
  change (asBool (Eq (FromInt 1) (FromInt 2))
            (set_unkTy (freshCtx s NilSort r) IntSort))
    with (@Ok Value (Eq (FromInt 1) (FromInt 2)),
          set_unkTy (freshCtx s NilSort r) IntSort).
  cbv iota beta.
  set (c := Assert _ _).
  assert (HU : Check (solver c) = Unsat).
  { destruct (Check (solver c)) as [m| |] eqn:HC; [|reflexivity|].
    - assert (Hin : Eq (FromInt 1) (FromInt 2) ∈ solver c).
      { subst c. simpl. apply elem_of_app. right. by apply list_elem_of_singleton. }
      pose proof (Check_sound _ _ HC _ Hin) as Hh. discriminate Hh.
    - by apply Check_decides in HC. }
  rewrite (enumerate_unsat Check fuel c q [] HU). reflexivity.
Qed.

(** C1 (as the code has it): for the predicate [x == false] with [x]
    the boolean unknown, the lowered formula is [x = true]; an engine
    that finds it satisfiable makes the call return the single value
    [true], and the predicate evaluated directly at [x = true] is
    false. *)
Theorem false_literal_breaks_soundness (fuel : nat) (predicate : string)
    (m0 : Model) :
  ParseExpr predicate = inl (BinaryExpr (Ident "x") EQL (Ident "false")) ->
  Check [Eq (Const "x" BoolSort) (FromBool true)] = Sat m0 ->
  partialSolveForAllImpl ParseExpr Check (S (S fuel)) [] predicate
      (fun _ => anyNil) "x" TypeBool
    = Some (Ok [FromBool true], []) /\
  evalDirect (substitute (fun _ => anyNil) "x" (FromBool true))
             (BinaryExpr (Ident "x") EQL (Ident "false"))
    = Some (SBool false).
Proof.
  intros Hp H0. split; [|reflexivity].
  unfold partialSolveForAllImpl. rewrite Hp.
  change (sortOfType TypeBool) with (Some BoolSort). cbv iota beta.
  set (c0 := set_unkTy (freshCtx [] NilSort (fun _ => anyNil)) BoolSort).
  set (x := Const "x" BoolSort).
  set (cond := Eq x (FromBool true)).
  assert (HL : lower (BinaryExpr (Ident "x") EQL (Ident "false")) c0
               = (Ok cond, set_idents c0 (<["x" := x]> ∅))) by reflexivity.
  rewrite HL. cbv iota beta.
  change (asBool cond (set_idents c0 (<["x" := x]> ∅)))
    with (@Ok Value cond, set_idents c0 (<["x" := x]> ∅)).
  cbv iota beta.
  assert (Hx : m_bool m0 "x" = true).
  { assert (Hin : cond ∈ [cond]) by (by apply list_elem_of_singleton).
    pose proof (Check_sound _ _ H0 _ Hin) as Hh.
    unfold holds in Hh. simpl in Hh.
    destruct (m_bool m0 "x"); [reflexivity|discriminate]. }
  set (c1 := Assert cond (set_idents c0 (<["x" := x]> ∅))).
  assert (Hlk : idents c1 !! "x" = Some x) by apply lookup_insert_eq.
  assert (HE : Model_Eval m0 x = FromBool true).
  { unfold Model_Eval. simpl. rewrite Hx. reflexivity. }
  rewrite (enumerate_sat Check (S fuel) c1 "x" [] m0 x H0 Hlk), HE.
  set (c2 := Assert _ c1).
  assert (HU : Check (solver c2) = Unsat).
  { destruct (Check (solver c2)) as [m1| |] eqn:H1; [|reflexivity|].
    - exfalso.
      assert (Hc : holds m1 cond = true).
      { eapply Check_sound; [exact H1|]. apply elem_of_cons. by left. }
      assert (Hd : holds m1 (Distinct x (FromBool true)) = true).
      { eapply Check_sound; [exact H1|].
        apply elem_of_cons. right. by apply list_elem_of_singleton. }
      unfold holds in Hc, Hd. simpl in Hc, Hd.
      destruct (m_bool m1 "x"); discriminate.
    - by apply Check_decides in H1. }
  rewrite (enumerate_unsat Check fuel c2 "x" _ HU). reflexivity.
Qed.

End SolverFacts.

(** ** The statements at concrete inputs *)

Section Examples.
Import token ast z3 Partial.

Lemma partialSolveForAllImpl_NoDup_witness :
  NoDup [FromInt 18; FromInt 19; FromInt 20].
Proof.
  apply (partialSolveForAllImpl_NoDup exampleParse searchCheck searchCheck_sound
           10 [] "age >= 18 && age < 21" (fun _ => anyNil) "age" TypeInt
           [FromInt 18; FromInt 19; FromInt 20] []).
  vm_compute. reflexivity.
Defined.

Lemma vacuous_query_on_unsat_formula_witness :
  idents (snd (lower (BinaryExpr (BasicLit INT "1") EQL (BasicLit INT "2"))
                 (freshCtx [] IntSort (fun _ => anyNil)))) !! "x" = None /\
  partialSolveForAllImpl exampleParse searchCheck 1 [] "1 == 2"
      (fun _ => anyNil) "x" TypeInt
    = Some (Ok [], []).
Proof.
  apply (vacuous_query_on_unsat_formula exampleParse searchCheck
           searchCheck_sound searchCheck_decides 0 [] "1 == 2"
           (fun _ => anyNil) "x").
  reflexivity.
Defined.

Lemma false_literal_breaks_soundness_witness :
  partialSolveForAllImpl exampleParse searchCheck 2 [] "x == false"
      (fun _ => anyNil) "x" TypeBool
    = Some (Ok [FromBool true], []) /\
  evalDirect (substitute (fun _ => anyNil) "x" (FromBool true))
             (BinaryExpr (Ident "x") EQL (Ident "false"))
    = Some (SBool false).
Proof.
  apply (false_literal_breaks_soundness exampleParse searchCheck
           searchCheck_sound searchCheck_decides 0 "x == false"
           (modelOf [("x", SBool true)])).
  - reflexivity.
  - vm_compute. reflexivity.
Defined.

End Examples.

(** ** More on the DPLL sketch: literal picking and the search *)

Section DpllSearch.
Import Dpll.

Lemma find_app_first {A : Type} (p : A -> bool) (l r : list A) :
  find p (l ++ r) =
  match find p l with
  | Some x => Some x
  | None => find p r
  end.
Proof.
  induction l as [|a l IH]; simpl; [reflexivity|].
  destruct (p a); [reflexivity|exact IH].
Qed.

Lemma pickLiteral_find (n : node) (f : string -> bool) :
  wellShaped n = true ->
  pickLiteral n (fun x => Ret (f x)) =
  Ret (find (fun k => negb (f k)) (identifiers n)).
Proof.
  induction n as [b|k|l IHl|l IHl r IHr|l IHl r IHr|]; simpl; intros Hw;
    try discriminate; auto.
  - destruct (f k); reflexivity.
  - apply andb_true_iff in Hw as [Hwl Hwr].
    rewrite IHl, IHr by assumption. simpl. rewrite find_app_first.
    destruct (find _ (identifiers l)); reflexivity.
  - apply andb_true_iff in Hw as [Hwl Hwr].
    rewrite IHl, IHr by assumption. simpl. rewrite find_app_first.
    destruct (find _ (identifiers l)); reflexivity.
Qed.

(** X1: [pickLiteral] with a total exclusion test returns the first
    identifier of the node, reading left to right, that is not excluded,
    and nil when there is none. *)
Theorem pickLiteral_first (n : node) (f : string -> bool) :
  wellShaped n = true ->
  pickLiteral n (fun x => Ret (f x)) =
  Ret (find (fun k => negb (f k)) (identifiers n)).
Proof. apply pickLiteral_find. Qed.

Lemma pickLiteral_first_witness :
  pickLiteral (nodeAnd (nodeIdentifier "a")
                       (nodeOr (nodeNot (nodeIdentifier "b")) (nodeIdentifier "c")))
              (fun x => Ret (String.eqb x "a")) = Ret (Some "b").
Proof.
  apply (pickLiteral_first
           (nodeAnd (nodeIdentifier "a")
                    (nodeOr (nodeNot (nodeIdentifier "b")) (nodeIdentifier "c")))
           (fun x => String.eqb x "a")).
  reflexivity.
Defined.

(** A node holding a foreign value makes [pickLiteral] panic wherever
    the value sits: both operands of a connective are always visited. *)
Lemma pickLiteral_foreign (n : node) (f : string -> bool) :
  wellShaped n = false ->
  pickLiteral n (fun x => Ret (f x)) = Panic "unreachable".
Proof.
  induction n as [b|k|l IHl|l IHl r IHr|l IHl r IHr|]; simpl; intros Hw;
    try discriminate; auto.
  - destruct (wellShaped l) eqn:Hl.
    + rewrite (pickLiteral_find l f Hl). simpl. rewrite IHr by assumption.
      reflexivity.
    + rewrite IHl by reflexivity. reflexivity.
  - destruct (wellShaped l) eqn:Hl.
    + rewrite (pickLiteral_find l f Hl). simpl. rewrite IHr by assumption.
      reflexivity.
    + rewrite IHl by reflexivity. reflexivity.
Qed.

Lemma pickUnassigned_find (st : state) :
  forallb wellShaped (clauses st) = true ->
  pickUnassigned st =
  Ret (find (fun k => negb (fst (isAssigned st k)))
            (flat_map identifiers (clauses st))).
Proof.
  unfold pickUnassigned. generalize (clauses st) as cs.
  induction cs as [|c cs IH]; simpl; intros Hw; [reflexivity|].
  apply andb_true_iff in Hw as [Hc Hcs].
  rewrite (pickLiteral_find c (fun x => fst (isAssigned st x)) Hc). simpl.
  rewrite find_app_first.
  destruct (find _ (identifiers c)); [reflexivity|]. by apply IH.
Qed.

(** X2: [pickUnassigned] returns the first identifier, scanning the clauses
    in order and each clause left to right, that has no assignment, and
    nil when every identifier is assigned. *)
Theorem pickUnassigned_first (st : state) :
  forallb wellShaped (clauses st) = true ->
  pickUnassigned st =
  Ret (find (fun k => negb (fst (isAssigned st k)))
            (flat_map identifiers (clauses st))).
Proof. apply pickUnassigned_find. Qed.

Lemma pickUnassigned_first_witness :
  pickUnassigned
    {| clauses := [nodeOr (nodeIdentifier "a") (nodeIdentifier "b");
                   nodeIdentifier "c"];
       assignments := [mkAssignment "a" true];
       watched := ∅; enforce := []; uprop := [] |} = Ret (Some "b").
Proof.
  apply (pickUnassigned_first
    {| clauses := [nodeOr (nodeIdentifier "a") (nodeIdentifier "b");
                   nodeIdentifier "c"];
       assignments := [mkAssignment "a" true];
       watched := ∅; enforce := []; uprop := [] |}).
  reflexivity.
Defined.

Lemma isAssigned_in_app (l : list assignment) (k x : string) (v : bool) :
  isAssigned_in (l ++ [mkAssignment k v]) x =
  if fst (isAssigned_in l x) then isAssigned_in l x
  else if String.eqb k x then (true, v) else (false, false).
Proof.
  induction l as [|a l IH]; simpl; [reflexivity|].
  destruct (String.eqb (key a) x); [reflexivity|exact IH].
Qed.

(** X3: [isAssigned] reads the first entry for a key: an assignment appended
    for a key that already has one is not seen, one appended for an
    unassigned key is. *)
Theorem isAssigned_append (l : list assignment) (k x : string) (v : bool) :
  isAssigned_in (l ++ [mkAssignment k v]) x =
  if fst (isAssigned_in l x) then isAssigned_in l x
  else if String.eqb k x then (true, v) else (false, false).
Proof. apply isAssigned_in_app. Qed.

Lemma satisfied_always (st : state) : satisfied st = true.
Proof.
  unfold satisfied. apply forallb_forall. intros c _. reflexivity.
Qed.

Lemma backtrackAdjust_true (st : state) (n : nat) :
  backtrackAdjust st n = Ret (true, st).
Proof.
  destruct n; simpl; rewrite satisfied_always; reflexivity.
Qed.

(** X4: [backtrackAdjust] reports success for every state and slice, and
    never flips an assignment: its [satisfied] test cannot fail because
    [evalClause] never answers [dpllUnsatisfied]. *)
Theorem backtrackAdjust_always_true (st : state) (n : nat) :
  backtrackAdjust st n = Ret (true, st).
Proof. apply backtrackAdjust_true. Qed.

(** X5: [dpll] panics as soon as the state has an enforce clause: the first
    loop hits the [dpllUnknown] case it marks unreachable. *)
Theorem dpll_enforce_panics (fuel : nat) (st : state) :
  enforce st <> [] ->
  dpll fuel st = Some (Panic "unreachable").
Proof.
  intros H. unfold dpll. destruct (enforce st) as [|c cs]; [congruence|].
  reflexivity.
Qed.

Lemma dpll_enforce_panics_witness :
  dpll 5 {| clauses := [nodeIdentifier "a"]; assignments := [];
            watched := ∅; enforce := [nodeIdentifier "a"]; uprop := [] |}
  = Some (Panic "unreachable").
Proof.
  apply (dpll_enforce_panics 5
           {| clauses := [nodeIdentifier "a"]; assignments := [];
              watched := ∅; enforce := [nodeIdentifier "a"]; uprop := [] |}).
  simpl. discriminate.
Defined.

(** X6: No clause gets an answer from [newState] followed by [dpll]: either
    [newState] panics, or the state it builds makes [dpll] panic, with
    any amount of fuel. *)
Theorem newState_then_dpll_panics (clause : node) :
  (exists msg, newState clause = Panic msg) \/
  (exists st, newState clause = Ret st /\
              forall fuel, dpll fuel st = Some (Panic "unreachable")).
Proof.
  destruct (wellShaped clause) eqn:Hw.
  - destruct (hasIdentifier clause) eqn:Hi.
    + right. eexists. split; [by apply newState_with_identifier|].
      intros fuel. reflexivity.
    + left. eexists. unfold newState. simpl.
      rewrite (pickLiteral_closed clause _ Hw Hi). simpl.
      rewrite (pickLiteral_closed clause _ Hw Hi). reflexivity.
  - left. eexists. unfold newState. simpl.
    rewrite (pickLiteral_foreign clause (fun _ => false) Hw). reflexivity.
Qed.

End DpllSearch.

Section DpllTermination.
Import Dpll.

Lemma filter_length_le {A : Type} (P Q : A -> bool) (l : list A) :
  (forall x, Q x = true -> P x = true) ->
  length (List.filter Q l) <= length (List.filter P l).
Proof.
  intros HPQ. induction l as [|a l IH]; simpl; [lia|].
  destruct (Q a) eqn:HQ.
  - rewrite (HPQ a HQ). simpl. lia.
  - destruct (P a); simpl; lia.
Qed.

Lemma filter_length_bound {A : Type} (P : A -> bool) (l : list A) :
  length (List.filter P l) <= length l.
Proof.
  induction l as [|a l IH]; simpl; [lia|]. destruct (P a); simpl; lia.
Qed.

Lemma filter_length_lt {A : Type} (P Q : A -> bool) (l : list A) (k : A) :
  (forall x, Q x = true -> P x = true) ->
  In k l -> P k = true -> Q k = false ->
  length (List.filter Q l) < length (List.filter P l).
Proof.
  intros HPQ. induction l as [|a l IH]; simpl; intros Hin HP HQ; [tauto|].
  destruct Hin as [->|Hin].
  - rewrite HP, HQ. simpl.
    pose proof (filter_length_le P Q l HPQ). lia.
  - specialize (IH Hin HP HQ). destruct (Q a) eqn:HQa.
    + rewrite (HPQ a HQa). simpl. lia.
    + destruct (P a); simpl; lia.
Qed.

(** The search loop ends after at most one turn per unassigned
    identifier, always with the answer [true]; it keeps the clauses,
    leaves no identifier unassigned and gives [true] to every
    identifier it assigns. *)
Lemma dpllLoop_returns_true (fuel : nat) :
  forall st,
    forallb wellShaped (clauses st) = true ->
    length (unassigned st) < fuel ->
    exists st',
      dpllLoop fuel st = Some (Ret (true, st')) /\
      clauses st' = clauses st /\
      pickUnassigned st' = Ret None /\
      exists added,
        assignments st' = assignments st ++ added /\
        Forall (fun a => value a = true) added.
Proof.
  induction fuel as [|fuel IH]; intros st Hw Hlt; [lia|].
  simpl. rewrite (pickUnassigned_find st Hw).
  destruct (find _ _) as [k|] eqn:F.
  - rewrite backtrackAdjust_true.
    set (st1 := set_assignments st (assignments st ++ [mkAssignment k true])).
    apply find_some in F as [Hin Hk].
    assert (Hdec : length (unassigned st1) < length (unassigned st)).
    { unfold unassigned. simpl.
      apply (filter_length_lt _ _ _ k); auto.
      - intros x. unfold isAssigned. simpl. rewrite isAssigned_in_app.
        destruct (fst (isAssigned_in (assignments st) x)) eqn:E; [|reflexivity].
        rewrite E. discriminate.
      - unfold isAssigned. simpl. rewrite isAssigned_in_app.
        unfold isAssigned in Hk.
        destruct (fst (isAssigned_in (assignments st) k)); [discriminate|].
        rewrite String.eqb_refl. reflexivity. }
    destruct (IH st1 Hw ltac:(lia)) as (st' & E1 & E2 & E3 & added & E4 & E5).
    exists st'. split; [exact E1|]. split; [exact E2|]. split; [exact E3|].
    exists (mkAssignment k true :: added). split.
    + rewrite E4. simpl. rewrite <- app_assoc. reflexivity.
    + constructor; [reflexivity|exact E5].
  - exists st. split; [reflexivity|]. split; [reflexivity|].
    split; [rewrite (pickUnassigned_find st Hw), F; reflexivity|].
    exists []. split; [by rewrite app_nil_r|constructor].
Qed.

(** X7: With no enforce clause, [dpll] answers [true] for every formula,
    whatever the clauses say: it assigns [true] to each identifier in
    turn and never finds a clause unsatisfied. *)
Theorem dpll_without_enforce_answers_true (st : state) :
  enforce st = [] ->
  forallb wellShaped (clauses st) = true ->
  exists st',
    dpll (S (length (flat_map identifiers (clauses st)))) st
      = Some (Ret (true, st')) /\
    clauses st' = clauses st /\
    pickUnassigned st' = Ret None.
Proof.
  intros He Hw. unfold dpll. rewrite He. simpl checkEnforce. cbv iota.
  destruct (dpllLoop_returns_true
              (S (length (flat_map identifiers (clauses st)))) st Hw)
    as (st' & E1 & E2 & E3 & _).
  { unfold unassigned.
    pose proof (filter_length_bound (fun k => negb (fst (isAssigned st k)))
                  (flat_map identifiers (clauses st))). lia. }
  exists st'. auto.
Qed.

Lemma dpll_without_enforce_answers_true_witness :
  exists st',
    dpll 3 {| clauses := [nodeAnd (nodeIdentifier "a") (nodeNot (nodeIdentifier "a"))];
              assignments := []; watched := ∅; enforce := []; uprop := [] |}
      = Some (Ret (true, st')) /\
    clauses st' = [nodeAnd (nodeIdentifier "a") (nodeNot (nodeIdentifier "a"))] /\
    pickUnassigned st' = Ret None.
Proof.
  apply (dpll_without_enforce_answers_true
    {| clauses := [nodeAnd (nodeIdentifier "a") (nodeNot (nodeIdentifier "a"))];
       assignments := []; watched := ∅; enforce := []; uprop := [] |});
    reflexivity.
Defined.

End DpllTermination.

(** ** What lowering does to the context *)

Section LowerFacts.
Import token ast z3 Partial.

Lemma extends_refl (c : ctx) : extends c c.
Proof. repeat split; auto. Qed.

Lemma extends_trans (c1 c2 c3 : ctx) :
  extends c1 c2 -> extends c2 c3 -> extends c1 c3.
Proof.
  intros (A1 & A2 & A3 & A4) (B1 & B2 & B3 & B4).
  repeat split; try congruence. auto.
Qed.

Lemma extending_ret {A : Type} (a : A) : extending (ret a).
Proof. intros c. apply extends_refl. Qed.

Lemma extending_fail {A : Type} (e : error) : extending (@fail A e).
Proof. intros c. apply extends_refl. Qed.

Lemma extending_panic {A : Type} (msg : string) : extending (@panic A msg).
Proof. intros c. apply extends_refl. Qed.

Lemma extending_bind {A B : Type} (x : M A) (k : A -> M B) :
  extending x -> (forall a, extending (k a)) -> extending (bind x k).
Proof.
  intros Hx Hk c. unfold bind. specialize (Hx c).
  destruct (x c) as [[a| |] c1]; simpl in *; try exact Hx.
  eapply extends_trans; [exact Hx|apply Hk].
Qed.

Lemma extending_asInt (x : Value) : extending (asInt x).
Proof.
  unfold asInt. destruct (Value_Sort x);
    auto using extending_ret, extending_panic.
Qed.

Lemma extending_asBool (x : Value) : extending (asBool x).
Proof.
  unfold asBool. destruct (Value_Sort x);
    auto using extending_ret, extending_panic.
Qed.

Lemma extending_asString (x : Value) : extending (asString x).
Proof.
  unfold asString. destruct (Value_Sort x);
    auto using extending_ret, extending_panic.
Qed.

Lemma extending_pickType (x y : Value) : extending (pickType x y).
Proof.
  unfold pickType. destruct (negb _);
    auto using extending_ret, extending_fail.
Qed.

Lemma extending_resolve (fields : list string) : extending (resolve fields).
Proof.
  intros c. unfold resolve.
  destruct (idents c !! Join fields ".") eqn:Hl; [apply extends_refl|].
  destruct (resolveIdentifier c fields); simpl;
    try apply extends_refl;
    (repeat split; auto; intros k0 w0 Hk; simpl;
     rewrite lookup_insert_ne; [exact Hk|congruence]).
Qed.

Create HintDb extending.
Local Hint Resolve extending_ret extending_fail extending_panic
  extending_asInt extending_asBool extending_asString extending_pickType
  extending_resolve : extending.

Lemma extending_lower (e : Expr) : extending (lower e).
Proof.
  induction e as [X IHX|X IHX Op Y IHY|Op X IHX|K V|X _ I _|X IHX Sel|Name|F _ Args|];
    simpl.
  - exact IHX.
  - unfold lowerBinary.
    apply extending_bind; [exact IHX|intros x].
    apply extending_bind; [exact IHY|intros y].
    destruct Op; auto with extending;
      try (apply extending_bind; [auto with extending|intros xi];
           apply extending_bind; [auto with extending|intros yi];
           auto with extending).
    apply extending_bind; [auto with extending|intros ty].
    destruct ty; auto with extending;
      (apply extending_bind; [auto with extending|intros xi];
       apply extending_bind; [auto with extending|intros yi];
       auto with extending).
  - unfold lowerUnary. destruct Op; auto with extending.
    apply extending_bind; [exact IHX|intros x].
    apply extending_bind; auto with extending.
  - unfold lowerBasicLit. destruct K; auto with extending.
    + destruct (Atoi V); auto with extending.
    + destruct (_ <? _)%nat; auto with extending.
  - unfold lowerIndexExpr. auto with extending.
  - unfold lowerSelectorExpr. destruct (evaluateSelector X Sel []);
      auto with extending.
  - unfold lowerIdent. destruct (String.eqb Name "true"); auto with extending.
    destruct (String.eqb Name "false"); auto with extending.
  - unfold lowerCallExpr. auto with extending.
  - auto with extending.
Qed.

(** X9: Lowering a tree, whatever the outcome, leaves the assertion stack,
    the sort of the unknown and the resolver of the context untouched. *)
Theorem lower_frame (e : Expr) (c : ctx) :
  solver (snd (lower e c)) = solver c /\
  unkTy (snd (lower e c)) = unkTy c /\
  resolveIdentifier (snd (lower e c)) = resolveIdentifier c.
Proof.
  destruct (extending_lower e c) as (H1 & H2 & H3 & _). auto.
Qed.

(** X10: The identifier table only grows during lowering: an entry, once
    made, is neither replaced nor removed, so each path keeps the term
    it was first lowered to. *)
Theorem lower_keeps_entries (e : Expr) (c : ctx) (k : string) (v : Value) :
  idents c !! k = Some v ->
  idents (snd (lower e c)) !! k = Some v.
Proof.
  destruct (extending_lower e c) as (_ & _ & _ & H). apply H.
Qed.

Lemma lower_keeps_entries_witness :
  idents (snd (lower (BinaryExpr (Ident "x") EQL (Ident "y"))
                 (set_idents (freshCtx [] IntSort (fun _ => anyInt 1))
                             (<["x" := FromInt 9]> ∅)))) !! "x"
  = Some (FromInt 9).
Proof.
  apply (lower_keeps_entries (BinaryExpr (Ident "x") EQL (Ident "y"))
           (set_idents (freshCtx [] IntSort (fun _ => anyInt 1))
                       (<["x" := FromInt 9]> ∅)) "x" (FromInt 9)).
  reflexivity.
Defined.



End LowerFacts.

(** ** The terms lowering builds *)

Section LowerSorts.
Import token ast z3 Partial.

Lemma bind_Ok {A B : Type} (x : M A) (k : A -> M B) (c c' : ctx) (b : B) :
  bind x k c = (Ok b, c') ->
  exists a c1, x c = (Ok a, c1) /\ k a c1 = (Ok b, c').
Proof.
  unfold bind. destruct (x c) as [[a| |] c1]; intros H; try discriminate.
  eauto.
Qed.

Lemma Sort_eqb_eq (a b : Sort) : Sort_eqb a b = true <-> a = b.
Proof. destruct a, b; simpl; split; intros H; (reflexivity || discriminate). Qed.

Ltac split_andb :=
  repeat match goal with
         | H : _ && _ = true |- _ => apply andb_true_iff in H as [? ?]
         | H : Sort_eqb _ _ = true |- _ => apply Sort_eqb_eq in H
         end.

Lemma eval_wellSorted (v : Value) :
  wellSorted v = true ->
  forall m, exists a, eval m v = Some a /\ sortOfScalar a = Value_Sort v.
Proof.
  induction v as [z|b|s|n so|x IHx y IHy|x IHx y IHy|x IHx y IHy|x IHx y IHy
                  |x IHx y IHy|x IHx y IHy|x IHx y IHy|x IHx|x IHx y IHy];
    simpl; intros Hw m; try (eexists; split; reflexivity).
  - destruct so; try discriminate; eexists; split; reflexivity.
  - split_andb.
    destruct (IHx ltac:(assumption) m) as (a & -> & Sa),
             (IHy ltac:(assumption) m) as (b & -> & Sb).
    destruct a, b; simpl in *; try congruence; eexists; split; reflexivity.
  - split_andb.
    destruct (IHx ltac:(assumption) m) as (a & -> & Sa),
             (IHy ltac:(assumption) m) as (b & -> & Sb).
    destruct a, b; simpl in *; try congruence; eexists; split; reflexivity.
  - split_andb.
    destruct (IHx ltac:(assumption) m) as (a & -> & Sa),
             (IHy ltac:(assumption) m) as (b & -> & Sb).
    destruct a, b; simpl in *; try congruence; eexists; split; reflexivity.
  - split_andb.
    destruct (IHx ltac:(assumption) m) as (a & -> & Sa),
             (IHy ltac:(assumption) m) as (b & -> & Sb).
    destruct a, b; simpl in *; try congruence; eexists; split; reflexivity.
  - split_andb.
    destruct (IHx ltac:(assumption) m) as (a & -> & Sa),
             (IHy ltac:(assumption) m) as (b & -> & Sb).
    destruct a, b; simpl in *; try congruence; eexists; split; reflexivity.
  - split_andb.
    destruct (IHx ltac:(assumption) m) as (a & -> & Sa),
             (IHy ltac:(assumption) m) as (b & -> & Sb).
    destruct a, b; simpl in *; try congruence; eexists; split; reflexivity.
  - split_andb.
    destruct (IHx ltac:(assumption) m) as (a & -> & Sa),
             (IHy ltac:(assumption) m) as (b & -> & Sb).
    destruct a, b; simpl in *; try congruence; eexists; split; reflexivity.
  - split_andb.
    destruct (IHx ltac:(assumption) m) as (a & -> & Sa).
    destruct a; simpl in *; try congruence; eexists; split; reflexivity.
  - split_andb.
    destruct (IHx ltac:(assumption) m) as (a & -> & Sa),
             (IHy ltac:(assumption) m) as (b & -> & Sb).
    destruct a, b; simpl in *; try congruence; eexists; split; reflexivity.
Qed.

Lemma resolve_wellSorted (fields : list string) (c c' : ctx) (v : Value) :
  tableOk c -> resolve fields c = (Ok v, c') ->
  wellSorted v = true /\ tableOk c'.
Proof.
  intros [Hu Ht] H. unfold resolve in H.
  destruct (idents c !! Join fields ".") as [w|] eqn:Hl.
  - injection H as <- <-. split; [eauto|split; assumption].
  - assert (Hins : forall t, wellSorted t = true ->
              tableOk (set_idents c (<[Join fields "." := t]> (idents c)))).
    { intros t Hwt. split; [exact Hu|]. simpl. intros k w Hk.
      destruct (decide (Join fields "." = k)) as [<-|Hne].
      - rewrite lookup_insert_eq in Hk. congruence.
      - rewrite lookup_insert_ne in Hk by assumption. eauto. }
    destruct (resolveIdentifier c fields); try discriminate;
      injection H as <- <-; (split; [|apply Hins]); try reflexivity.
    all: simpl; destruct (unkTy c); simpl; congruence.
Qed.

Lemma lower_wellSorted_table (e : Expr) :
  forall c v c',
    tableOk c -> lower e c = (Ok v, c') ->
    wellSorted v = true /\ tableOk c'.
Proof.
  induction e as [X IHX|X IHX Op Y IHY|Op X IHX|K V|X _ I _|X IHX Sel|Name|F _ Args|];
    simpl; intros c v c' Hc H.
  - eauto.
  - unfold lowerBinary in H.
    apply bind_Ok in H as (x & c1 & Hx & H).
    apply bind_Ok in H as (y & c2 & Hy & H).
    destruct (IHX _ _ _ Hc Hx) as [Wx Hc1].
    destruct (IHY _ _ _ Hc1 Hy) as [Wy Hc2].
    unfold pickType, asInt, asBool, asString, bind, ret, fail, panic in H.
    destruct Op; try discriminate;
      destruct (Value_Sort x) eqn:Sx, (Value_Sort y) eqn:Sy;
      simpl in H; try discriminate;
      injection H as <- <-; simpl; rewrite Wx, Wy, ?Sx, ?Sy; auto.
  - unfold lowerUnary in H. destruct Op; try discriminate.
    apply bind_Ok in H as (x & c1 & Hx & H).
    destruct (IHX _ _ _ Hc Hx) as [Wx Hc1].
    unfold asBool, bind, ret, panic in H.
    destruct (Value_Sort x) eqn:Sx; simpl in H; try discriminate.
    injection H as <- <-. simpl. rewrite Wx, Sx. auto.
  - unfold lowerBasicLit in H. destruct K; try discriminate.
    + destruct (Atoi V); try discriminate. injection H as <- <-. auto.
    + destruct (_ <? _)%nat; try discriminate. injection H as <- <-. auto.
  - discriminate.
  - unfold lowerSelectorExpr in H.
    destruct (evaluateSelector X Sel []); try discriminate.
    eapply resolve_wellSorted; eauto.
  - unfold lowerIdent in H.
    destruct (String.eqb Name "true"); [injection H as <- <-; auto|].
    destruct (String.eqb Name "false"); [injection H as <- <-; auto|].
    eapply resolve_wellSorted; eauto.
  - discriminate.
  - discriminate.
Qed.

(** X12: Lowering builds only terms the engine can evaluate: from a context
    whose table holds well-sorted terms and whose unknown has one of the
    three sorts, a successful lowering returns a well-sorted term, keeps
    the table well-sorted, and the term has a value of its own sort in
    every model. *)
Theorem lower_wellSorted (e : Expr) :
  forall c v c',
    tableOk c -> lower e c = (Ok v, c') ->
    wellSorted v = true /\ tableOk c' /\
    forall m, exists a, eval m v = Some a /\ sortOfScalar a = Value_Sort v.
Proof.
  intros c v c' Hc H. destruct (lower_wellSorted_table e c v c' Hc H) as [Hw Ht].
  split; [exact Hw|]. split; [exact Ht|]. by apply eval_wellSorted.
Qed.

Lemma lower_wellSorted_witness :
  wellSorted (And (GE (Const "age" IntSort) (FromInt 18))
                  (LT (Const "age" IntSort) (FromInt 21))) = true /\
  tableOk (set_idents (freshCtx [] IntSort (fun _ => anyNil))
                      (<["age" := Const "age" IntSort]> ∅)) /\
  forall m, exists a,
    eval m (And (GE (Const "age" IntSort) (FromInt 18))
                (LT (Const "age" IntSort) (FromInt 21))) = Some a /\
    sortOfScalar a = BoolSort.
Proof.
  apply (lower_wellSorted
           (BinaryExpr (BinaryExpr (Ident "age") GEQ (BasicLit INT "18")) LAND
                       (BinaryExpr (Ident "age") LSS (BasicLit INT "21")))
           (freshCtx [] IntSort (fun _ => anyNil))).
  - split; [discriminate|]. intros k v H. simpl in H.
    rewrite lookup_empty in H. discriminate.
  - vm_compute. reflexivity.
Defined.

End LowerSorts.

(** ** Shapes of predicates *)

Section LowerShapes.
Import token ast z3 Partial.

Lemma evaluateSelector_rejects (X : Expr) :
  forall Sel acc, hasCallOrIndex X = true ->
    exists err, evaluateSelector X Sel acc = inl err.
Proof.
  induction X as [X IHX|X IHX Op Y IHY|Op X IHX|K V|X _ I _|X IHX Sel'|Name|F _ Args|];
    intros Sel acc H; simpl in *; try discriminate; eauto.
Qed.

(** X13: A predicate with a function call or an index expression anywhere in
    it is never lowered: [lower] ends in an error or a panic. *)
Theorem lower_rejects_call_and_index (e : Expr) :
  hasCallOrIndex e = true ->
  forall c v c', lower e c <> (Ok v, c').
Proof.
  induction e as [X IHX|X IHX Op Y IHY|Op X IHX|K V|X _ I _|X IHX Sel|Name|F _ Args|];
    simpl; intros H c v c' E; try discriminate.
  - eapply IHX; eauto.
  - unfold lowerBinary in E.
    apply bind_Ok in E as (x & c1 & Hx & E).
    apply bind_Ok in E as (y & c2 & Hy & E).
    apply orb_true_iff in H as [H|H]; [eapply IHX|eapply IHY]; eauto.
  - unfold lowerUnary in E. destruct Op; try discriminate.
    apply bind_Ok in E as (x & c1 & Hx & E). eapply IHX; eauto.
  - unfold lowerSelectorExpr in E.
    destruct (evaluateSelector_rejects X Sel [] H) as [err Herr].
    rewrite Herr in E. discriminate.
Qed.

Lemma lower_rejects_call_and_index_witness :
  lower (BinaryExpr (Ident "a") LAND (UnaryExpr NOT (CallExpr (Ident "f") [Ident "a"])))
        (freshCtx [] BoolSort (fun _ => anyNil))
  <> (Ok (FromBool true), freshCtx [] BoolSort (fun _ => anyNil)).
Proof.
  apply (lower_rejects_call_and_index
           (BinaryExpr (Ident "a") LAND
                       (UnaryExpr NOT (CallExpr (Ident "f") [Ident "a"])))).
  reflexivity.
Defined.

Lemma evaluateSelector_chain (root : string) (sels : list string) :
  forall Sel acc,
    evaluateSelector (selectorChain root sels) Sel acc
    = inr (root :: sels ++ Sel :: acc).
Proof.
  unfold selectorChain.
  induction sels as [|s sels IH] using rev_ind; intros Sel acc; simpl.
  - reflexivity.
  - rewrite fold_left_app. simpl. rewrite IH, <- app_assoc. reflexivity.
Qed.

(** X14: A dotted path [root.s1...sn] is lowered by resolving the segments
    in the order they are written, under the key that joins them with
    dots. *)
Theorem lower_selectorChain (root : string) (sels : list string) (last : string) :
  lower (selectorChain root (sels ++ [last])) =
  resolve (root :: sels ++ [last]).
Proof.
  unfold selectorChain. rewrite fold_left_app. simpl.
  unfold lowerSelectorExpr.
  change (fold_left SelectorExpr sels (Ident root)) with (selectorChain root sels).
  rewrite evaluateSelector_chain. reflexivity.
Qed.

Lemma substring_prefix (s t : string) :
  substring 0 (String.length s) (String.append s t) = s.
Proof.
  induction s as [|ch s IH]; simpl.
  - destruct t; reflexivity.
  - rewrite IH. reflexivity.
Qed.

Lemma length_append (s t : string) :
  String.length (String.append s t) = String.length s + String.length t.
Proof. induction s as [|ch s IH]; simpl; [reflexivity|]. by rewrite IH. Qed.

(** X15: A string literal lowers to the text between its first and last
    character, byte for byte: whatever the two delimiters are and
    whatever the text contains (quotes and backslashes included), no
    escape is interpreted. *)
Theorem lowerBasicLit_string (open close : ascii) (s : string) (c : ctx) :
  lowerBasicLit STRING (String open (String.append s (String close ""))) c
  = (Ok (FromString s), c).
Proof.
  unfold lowerBasicLit.
  assert (HL : String.length (String open (String.append s (String close "")))
               = S (S (String.length s))).
  { simpl. rewrite length_append. simpl. lia. }
  rewrite HL.
  replace (S (S (String.length s)) - 2) with (String.length s) by lia.
  destruct (S (S (String.length s)) <? 2)%nat eqn:E.
  - apply Nat.ltb_lt in E. lia.
  - change (substring 1 (String.length s)
              (String open (String.append s (String close ""))))
      with (substring 0 (String.length s) (String.append s (String close ""))).
    rewrite substring_prefix. reflexivity.
Qed.

(** X16: An equality between two lowered operands compares their sorts
    first: operands of different sorts give the BadParameter error
    "type mismatch", operands of one sort give the equation. *)
Theorem lower_equality (X Y : Expr) (c c1 c2 : ctx) (x y : Value) :
  lower X c = (Ok x, c1) ->
  lower Y c1 = (Ok y, c2) ->
  lower (BinaryExpr X EQL Y) c =
  if Sort_eqb (Value_Sort x) (Value_Sort y) then
    match Value_Sort x with
    | NilSort => (Err (BadParameter "type does not support equals"), c2)
    | _ => (Ok (Eq x y), c2)
    end
  else (Err (BadParameter "type mismatch"), c2).
Proof.
  intros Hx Hy. simpl. unfold lowerBinary, bind. rewrite Hx, Hy.
  unfold pickType, asInt, asBool, asString, ret, fail, panic.
  destruct (Value_Sort x) eqn:Sx, (Value_Sort y) eqn:Sy; simpl;
    rewrite ?Sx, ?Sy; reflexivity.
Qed.

Lemma lower_equality_witness :
  lower (BinaryExpr (BasicLit INT "1") EQL (BasicLit STRING "'1'"))
        (freshCtx [] IntSort (fun _ => anyNil))
  = if Sort_eqb (Value_Sort (FromInt 1)) (Value_Sort (FromString "1")) then
      match Value_Sort (FromInt 1) with
      | NilSort => (Err (BadParameter "type does not support equals"),
                    freshCtx [] IntSort (fun _ => anyNil))
      | _ => (Ok (Eq (FromInt 1) (FromString "1")),
              freshCtx [] IntSort (fun _ => anyNil))
      end
    else (Err (BadParameter "type mismatch"),
          freshCtx [] IntSort (fun _ => anyNil)).
Proof.
  apply (lower_equality (BasicLit INT "1") (BasicLit STRING "'1'")
           (freshCtx [] IntSort (fun _ => anyNil))
           (freshCtx [] IntSort (fun _ => anyNil))
           (freshCtx [] IntSort (fun _ => anyNil))
           (FromInt 1) (FromString "1")); reflexivity.
Defined.

(** X17: An ordering comparison or a boolean connective does not report a
    sort error: with both operands of the sort the operator needs it
    builds its term, and with an operand of another sort the unchecked
    type assertion panics. *)
Theorem lower_operator_sorts (X Y : Expr) (Op : Token) (so : Sort)
    (c c1 c2 : ctx) (x y : Value) :
  operandSort Op = Some so ->
  lower X c = (Ok x, c1) ->
  lower Y c1 = (Ok y, c2) ->
  (Value_Sort x = so /\ Value_Sort y = so ->
   lower (BinaryExpr X Op Y) c = (Ok (binaryTerm Op x y), c2)) /\
  (Value_Sort x <> so \/ Value_Sort y <> so ->
   exists msg, lower (BinaryExpr X Op Y) c = (Panics msg, c2)).
Proof.
  intros Hop Hx Hy. simpl. unfold lowerBinary, bind. rewrite Hx, Hy.
  unfold asInt, asBool, ret, panic.
  destruct Op; try discriminate; injection Hop as <-; split.
  all: try (intros [-> ->]; reflexivity).
  all: intros [H|H];
    destruct (Value_Sort x) eqn:Sx, (Value_Sort y) eqn:Sy;
    try congruence; eexists; reflexivity.
Qed.

Lemma lower_operator_sorts_witness :
  (Value_Sort (FromString "a") = IntSort /\ Value_Sort (FromInt 1) = IntSort ->
   lower (BinaryExpr (BasicLit STRING "'a'") LSS (BasicLit INT "1"))
         (freshCtx [] IntSort (fun _ => anyNil))
   = (Ok (binaryTerm LSS (FromString "a") (FromInt 1)),
      freshCtx [] IntSort (fun _ => anyNil))) /\
  (Value_Sort (FromString "a") <> IntSort \/ Value_Sort (FromInt 1) <> IntSort ->
   exists msg,
     lower (BinaryExpr (BasicLit STRING "'a'") LSS (BasicLit INT "1"))
           (freshCtx [] IntSort (fun _ => anyNil))
     = (Panics msg, freshCtx [] IntSort (fun _ => anyNil))).
Proof.
  apply (lower_operator_sorts (BasicLit STRING "'a'") (BasicLit INT "1") LSS
           IntSort (freshCtx [] IntSort (fun _ => anyNil))
           (freshCtx [] IntSort (fun _ => anyNil))
           (freshCtx [] IntSort (fun _ => anyNil))
           (FromString "a") (FromInt 1)); reflexivity.
Defined.

End LowerShapes.

(** ** The enumeration against the lowered formula *)

Section EnumerationFacts.
Import token ast z3 Partial.

Variable ParseExpr : string -> Expr + error.
Variable Check : list Value -> CheckResult.

(** What a returned sequence tells about the run of the call. *)
Lemma impl_Ok_inv (fuel : nat) (s : list Value) (predicate : string)
    (r : Resolver) (q : string) (to : Z) (out s' : list Value) :
  partialSolveForAllImpl ParseExpr Check fuel s predicate r q to
    = Some (Ok out, s') ->
  exists tree ty cond c1 c',
    ParseExpr predicate = inl tree /\ sortOfType to = Some ty /\
    lower tree (set_unkTy (freshCtx s NilSort r) ty) = (Ok cond, c1) /\
    Value_Sort cond = BoolSort /\
    enumerate Check fuel (Assert cond c1) q [] = Some (Ok out, c').
Proof.
  intros H. unfold partialSolveForAllImpl in H.
  destruct (ParseExpr predicate) as [tree|e]; [|discriminate].
  unfold deferReset in H.
  destruct (sortOfType to) as [ty|]; [|discriminate].
  destruct (lower tree _) as [[cond| |] c1] eqn:HL; try discriminate.
  unfold asBool in H.
  destruct (Value_Sort cond) eqn:HS; try discriminate. simpl in H.
  destruct (enumerate Check fuel (Assert cond c1) q []) as [[x0 c3]|] eqn:E;
    [|discriminate].
  injection H as -> _.
  exists tree, ty, cond, c1, c3. auto.
Qed.

(** X18: A predicate that lowers to a term that is not boolean (a bare
    number, a string, an unknown of integer sort) makes the call panic
    at the type assertion before anything is asserted; the deferred
    reset still empties the stack. *)
Theorem impl_non_boolean_panics (fuel : nat) (s : list Value)
    (predicate : string) (r : Resolver) (q : string) (to : Z)
    (tree : Expr) (ty : Sort) (cond : Value) (c1 : ctx) :
  ParseExpr predicate = inl tree ->
  sortOfType to = Some ty ->
  lower tree (set_unkTy (freshCtx s NilSort r) ty) = (Ok cond, c1) ->
  Value_Sort cond <> BoolSort ->
  partialSolveForAllImpl ParseExpr Check fuel s predicate r q to
    = Some (Panics "interface conversion: z3.Value is not z3.Bool", []).
Proof.
  intros Hp Ht HL HS. unfold partialSolveForAllImpl. rewrite Hp, Ht, HL.
  unfold asBool. destruct (Value_Sort cond); try congruence; reflexivity.
Qed.

Lemma Model_Eval_literal (m : Model) (val : Value) (a : scalar) :
  scalarOf val = Some a -> Model_Eval m val = val.
Proof. destruct val; simpl; intros H; try discriminate; reflexivity. Qed.

Lemma enumerate_prefix (fuel : nat) :
  forall c q out res c',
    enumerate Check fuel c q out = Some (Ok res, c') ->
    exists rest, res = out ++ rest.
Proof.
  induction fuel as [|fuel IH]; intros c q out res c' H; simpl in H;
    [discriminate|].
  destruct (Check (solver c)); try discriminate.
  - destruct (idents c !! q); [|discriminate].
    apply IH in H as [rest ->]. rewrite <- app_assoc. eauto.
  - injection H as <- _. exists []. by rewrite app_nil_r.
Qed.

(** Two values of one well-sorted term that the disequality does not
    separate are the same value. *)
Lemma not_distinct_same (m m0 : Model) (val : Value) :
  wellSorted val = true ->
  holds m (Distinct val (Model_Eval m0 val)) = false ->
  Model_Eval m val = Model_Eval m0 val.
Proof.
  intros Hw H.
  destruct (eval_wellSorted val Hw m) as (a & Ea & Sa).
  destruct (eval_wellSorted val Hw m0) as (a0 & Ea0 & Sa0).
  unfold holds, Model_Eval in *. simpl in H. rewrite Ea, Ea0 in *.
  rewrite eval_lit in H. simpl in H.
  destruct a, a0; simpl in *; try congruence.
  - destruct (Z.eqb_spec z z0); [congruence|discriminate].
  - destruct b, b0; simpl in H; congruence.
  - destruct (String.eqb_spec s s0); [congruence|discriminate].
Qed.

Section Complete.
Hypothesis Check_refutes : engine_refutes Check.

Lemma enumerate_complete (fuel : nat) :
  forall c q out res c',
    enumerate Check fuel c q out = Some (Ok res, c') ->
    (forall v, idents c !! q = Some v -> wellSorted v = true) ->
    forall m, (forall a, a ∈ solver c -> holds m a = true) ->
    exists val, idents c !! q = Some val /\ Model_Eval m val ∈ res.
Proof.
  induction fuel as [|fuel IH]; intros c q out res c' H Hw m Hm; simpl in H;
    [discriminate|].
  destruct (Check (solver c)) as [m0| |] eqn:HC; try discriminate.
  - destruct (idents c !! q) as [val|] eqn:Hq; [|discriminate].
    destruct (holds m (Distinct val (Model_Eval m0 val))) eqn:Hd.
    + destruct (IH _ _ _ _ _ H) with (m := m) as (val' & E1 & E2).
      * simpl. rewrite Hq. exact Hw.
      * simpl. intros a Ha. apply elem_of_app in Ha as [Ha|Ha]; [auto|].
        apply list_elem_of_singleton in Ha as ->. exact Hd.
      * simpl in E1. rewrite Hq in E1. injection E1 as <-. eauto.
    + exists val. split; [reflexivity|].
      rewrite (not_distinct_same m m0 val (Hw _ eq_refl) Hd).
      apply enumerate_prefix in H as [rest ->].
      apply elem_of_app. left. apply elem_of_app. right.
      by apply list_elem_of_singleton.
  - destruct (Check_refutes _ HC m) as (a & Ha & Hf).
    rewrite (Hm a Ha) in Hf. discriminate.
Qed.

(** X21: Completeness on return: when the engine's [Unsat] answers are
    right and the call returns a sequence, the query path is in the
    table and its value in every model of the earlier assertions and of
    the lowered predicate is one of the returned values. *)
Theorem impl_complete (fuel : nat) (s : list Value) (predicate : string)
    (r : Resolver) (q : string) (to : Z) (out s' : list Value) (m : Model) :
  partialSolveForAllImpl ParseExpr Check fuel s predicate r q to
    = Some (Ok out, s') ->
  (forall a, a ∈ s -> holds m a = true) ->
  exists tree ty cond c1,
    ParseExpr predicate = inl tree /\ sortOfType to = Some ty /\
    lower tree (set_unkTy (freshCtx s NilSort r) ty) = (Ok cond, c1) /\
    (holds m cond = true ->
     exists val, idents c1 !! q = Some val /\ Model_Eval m val ∈ out).
Proof.
  intros H Hs.
  destruct (impl_Ok_inv _ _ _ _ _ _ _ _ H)
    as (tree & ty & cond & c1 & c' & Hp & Ht & HL & HS & E).
  exists tree, ty, cond, c1. repeat split; auto. intros Hc.
  assert (Htab : tableOk (set_unkTy (freshCtx s NilSort r) ty)).
  { split.
    - simpl. unfold sortOfType in Ht.
      repeat (destruct (_ =? _)%Z in Ht; [injection Ht as <-; discriminate|]).
      discriminate.
    - simpl. intros k v Hk. rewrite lookup_empty in Hk. discriminate. }
  destruct (lower_wellSorted_table tree _ _ _ Htab HL) as (_ & [_ Hc1]).
  pose proof (extending_lower tree (set_unkTy (freshCtx s NilSort r) ty)) as (Hsol & _).
  rewrite HL in Hsol. simpl in Hsol.
  destruct (enumerate_complete _ _ _ _ _ _ E) with (m := m) as (val & E1 & E2).
  - simpl. intros v Hv. eauto.
  - simpl. rewrite Hsol. intros a Ha.
    apply elem_of_app in Ha as [Ha|Ha]; [auto|].
    apply list_elem_of_singleton in Ha as ->. exact Hc.
  - eauto.
Qed.

End Complete.

Hypothesis Check_sound : engine_sound Check.

(** X20: Soundness against the lowered formula: each value the call returns
    is the value of the query path in a model that satisfies the
    lowered predicate and every assertion that was on the stack before
    the call. *)
Theorem impl_values_are_models (fuel : nat) (s : list Value)
    (predicate : string) (r : Resolver) (q : string) (to : Z)
    (out s' : list Value) :
  partialSolveForAllImpl ParseExpr Check fuel s predicate r q to
    = Some (Ok out, s') ->
  exists tree ty cond c1,
    ParseExpr predicate = inl tree /\ sortOfType to = Some ty /\
    lower tree (set_unkTy (freshCtx s NilSort r) ty) = (Ok cond, c1) /\
    forall v, v ∈ out ->
      exists m val,
        idents c1 !! q = Some val /\ Model_Eval m val = v /\
        holds m cond = true /\ forall a, a ∈ s -> holds m a = true.
Proof.
  intros H.
  destruct (impl_Ok_inv _ _ _ _ _ _ _ _ H)
    as (tree & ty & cond & c1 & c' & Hp & Ht & HL & HS & E).
  exists tree, ty, cond, c1. repeat split; auto. intros v Hv.
  pose proof (extending_lower tree (set_unkTy (freshCtx s NilSort r) ty)) as (Hsol & _).
  rewrite HL in Hsol. simpl in Hsol.
  destruct (enumerate_from_models Check Check_sound fuel (s ++ [cond])
              (Assert cond c1) q [] out c') with (v := v)
    as (m & val & E1 & E2 & E3); auto.
  - simpl. rewrite Hsol. auto.
  - intros v' Hv'. by apply elem_of_nil in Hv'.
  - exists m, val. simpl in E1. repeat split; auto.
    + apply E3. apply elem_of_app. right. by apply list_elem_of_singleton.
    + intros a Ha. apply E3. apply elem_of_app. by left.
Qed.

(** X22: When the query path is in the table as a constant (the resolver
    knew it, or another call cached a literal under it), the loop
    returns no value or exactly that constant: the blocking constraint
    of a constant against itself is unsatisfiable. *)
Theorem enumerate_constant_query (fuel : nat) (c c' : ctx) (q : string)
    (val : Value) (a : scalar) (res : list Value) :
  idents c !! q = Some val ->
  scalarOf val = Some a ->
  enumerate Check fuel c q [] = Some (Ok res, c') ->
  res = [] \/ res = [val].
Proof.
  intros Hq Ha H. destruct fuel as [|fuel]; simpl in H; [discriminate|].
  destruct (Check (solver c)) as [m| |] eqn:HC; try discriminate.
  - rewrite Hq in H. rewrite (Model_Eval_literal m val a Ha) in H.
    destruct fuel as [|fuel]; simpl in H; [discriminate|].
    destruct (Check (solver c ++ [Distinct val val])) as [m1| |] eqn:HC1;
      try discriminate.
    + exfalso.
      assert (Hin : Distinct val val ∈ solver c ++ [Distinct val val]).
      { apply elem_of_app. right. by apply list_elem_of_singleton. }
      pose proof (Check_sound _ _ HC1 _ Hin) as Hh.
      pose proof (blocking_excludes_model m1 val) as Hb.
      rewrite (Model_Eval_literal m1 val a Ha) in Hb. congruence.
    + injection H as <- _. right. reflexivity.
  - injection H as <- _. left. reflexivity.
Qed.

End EnumerationFacts.

(** ** When NotFound is reported *)

Section NotFoundFacts.
Import token ast z3 Partial.

Variable ParseExpr : string -> Expr + error.
Variable Check : list Value -> CheckResult.

Lemma bind_Err {A B : Type} (x : M A) (k : A -> M B) (c c' : ctx) (e : error) :
  bind x k c = (Err e, c') ->
  x c = (Err e, c') \/
  exists a c1, x c = (Ok a, c1) /\ k a c1 = (Err e, c').
Proof.
  unfold bind. destruct (x c) as [[a| |] c1]; intros H; try discriminate;
    [right; eauto|left; injection H as <- <-; reflexivity].
Qed.

Lemma resolve_error_kind (fields : list string) (c c' : ctx) (e : error) :
  resolve fields c = (Err e, c') -> forall msg, e <> NotFound msg.
Proof.
  unfold resolve. destruct (idents c !! Join fields "."); [discriminate|].
  destruct (resolveIdentifier c fields); intros H; try discriminate;
    injection H as <- _; discriminate.
Qed.

Lemma evaluateSelector_error_kind (X : Expr) :
  forall Sel acc e, evaluateSelector X Sel acc = inl e ->
    forall msg, e <> NotFound msg.
Proof.
  induction X; intros Sel0 acc e0 E; simpl in E;
    try (injection E as <-; discriminate); try discriminate; eauto.
Qed.

(** Lowering never fails with NotFound. *)
Lemma lower_error_kind (e : Expr) :
  forall c c' err, lower e c = (Err err, c') -> forall msg, err <> NotFound msg.
Proof.
  induction e as [X IHX|X IHX Op Y IHY|Op X IHX|K V|X _ I _|X IHX Sel|Name|F _ Args|];
    simpl; intros c c' err H.
  - eauto.
  - unfold lowerBinary in H.
    apply bind_Err in H as [H|(x & c1 & Hx & H)]; [eauto|].
    apply bind_Err in H as [H|(y & c2 & Hy & H)]; [eauto|].
    unfold pickType, asInt, asBool, asString, bind, ret, fail, panic in H.
    destruct Op; destruct (Value_Sort x), (Value_Sort y); simpl in H;
      try discriminate; injection H as <- _; discriminate.
  - unfold lowerUnary in H.
    destruct Op; try (injection H as <- _; discriminate).
    apply bind_Err in H as [H|(x & c1 & Hx & H)]; [eauto|].
    unfold asBool, bind, ret, panic in H.
    destruct (Value_Sort x); discriminate.
  - unfold lowerBasicLit in H. destruct K; try (injection H as <- _; discriminate).
    + destruct (Atoi V); [discriminate|]. injection H as <- _. discriminate.
    + destruct (_ <? _)%nat; discriminate.
  - injection H as <- _. discriminate.
  - unfold lowerSelectorExpr in H.
    destruct (evaluateSelector X Sel []) as [e0|fields] eqn:E.
    + injection H as <- _. eapply evaluateSelector_error_kind; eauto.
    + eapply resolve_error_kind; eauto.
  - unfold lowerIdent in H.
    destruct (String.eqb Name "true"); [discriminate|].
    destruct (String.eqb Name "false"); [discriminate|].
    eapply resolve_error_kind; eauto.
  - injection H as <- _. discriminate.
  - injection H as <- _. discriminate.
Qed.

Lemma enumerate_NotFound_first (fuel : nat) (c c' : ctx) (q : string)
    (out : list Value) (msg : string) :
  enumerate Check fuel c q out = Some (Err (NotFound msg), c') ->
  idents c !! q = None /\ exists m, Check (solver c) = Sat m.
Proof.
  intros H. pose proof (enumerate_NotFound Check fuel c q out msg c' H) as Hq.
  split; [exact Hq|].
  destruct fuel as [|fuel]; simpl in H; [discriminate|].
  destruct (Check (solver c)) as [m| |]; try discriminate. eauto.
Qed.

(** X19: NotFound comes from one place only: a predicate that parsed and
    lowered, whose formula the engine found satisfiable on the first
    check, and whose table has no entry for the query path. *)
Theorem impl_NotFound (fuel : nat) (s : list Value) (predicate : string)
    (r : Resolver) (q : string) (to : Z) (tree : Expr) (msg : string)
    (s' : list Value) :
  ParseExpr predicate = inl tree ->
  partialSolveForAllImpl ParseExpr Check fuel s predicate r q to
    = Some (Err (NotFound msg), s') ->
  exists ty cond c1,
    sortOfType to = Some ty /\
    lower tree (set_unkTy (freshCtx s NilSort r) ty) = (Ok cond, c1) /\
    idents c1 !! q = None /\
    exists m, Check (s ++ [cond]) = Sat m.
Proof.
  intros Hp H. unfold partialSolveForAllImpl in H. rewrite Hp in H.
  unfold deferReset in H.
  destruct (sortOfType to) as [ty|]; [|discriminate].
  destruct (lower tree _) as [[cond|e|] c1] eqn:HL; try discriminate.
  - unfold asBool in H.
    destruct (Value_Sort cond) eqn:HS; try discriminate. simpl in H.
    destruct (enumerate Check fuel (Assert cond c1) q []) as [[x0 c3]|] eqn:E;
      [|discriminate].
    injection H as -> _.
    apply enumerate_NotFound_first in E as [Hq [m Hm]].
    pose proof (extending_lower tree (set_unkTy (freshCtx s NilSort r) ty))
      as (Hsol & _).
    rewrite HL in Hsol. simpl in Hsol, Hm, Hq. rewrite Hsol in Hm.
    exists ty, cond, c1. eauto.
  - injection H as -> _. exfalso.
    exact (lower_error_kind tree _ _ _ HL msg eq_refl).
Qed.

End NotFoundFacts.

(** ** The second reference engine *)

Section RefutingEngine.
Import token ast z3 Partial.

Lemma eq_distinct_exclusive (m : Model) (x y : Value) :
  holds m (Eq x y) = true -> holds m (Distinct x y) = false.
Proof.
  unfold holds. simpl. unfold eq_rel.
  destruct (eval m x) as [a|], (eval m y) as [b|]; try discriminate.
  destruct (scalar_eqb a b) as [[|]|]; simpl; try discriminate; reflexivity.
Qed.

Lemma refutingCheck_refutes : engine_refutes refutingCheck.
Proof.
  intros stack H m. unfold refutingCheck in H.
  destruct (refuted stack) eqn:R;
    [|destruct (searchCheck stack); discriminate].
  unfold refuted in R.
  apply existsb_exists in R as (a & Ha & R).
  apply existsb_exists in R as (b & Hb & R).
  destruct a; try discriminate. destruct b; try discriminate. simpl in R.
  apply andb_true_iff in R as [R1 R2].
  apply bool_decide_eq_true in R1, R2. subst.
  apply list_elem_of_In in Ha, Hb.
  destruct (holds m (Eq b1 b2)) eqn:E.
  - exists (Distinct b1 b2). split; [exact Hb|]. by apply eq_distinct_exclusive.
  - exists (Eq b1 b2). split; [exact Ha|exact E].
Qed.

Lemma refutingCheck_sound : engine_sound refutingCheck.
Proof.
  intros stack m H. unfold refutingCheck in H.
  destruct (refuted stack); [discriminate|].
  destruct (searchCheck stack) as [m'| |] eqn:E; try discriminate.
  injection H as <-. by apply searchCheck_sound.
Qed.

End RefutingEngine.

(** ** Further statements at concrete inputs *)

Section MoreExamples.
Import token ast z3 Partial.

Lemma impl_non_boolean_panics_witness :
  partialSolveForAllImpl exampleParse searchCheck 0 [] "y"
      (fun _ => anyNil) "y" TypeInt
    = Some (Panics "interface conversion: z3.Value is not z3.Bool", []).
Proof.
  apply (impl_non_boolean_panics exampleParse searchCheck 0 [] "y"
           (fun _ => anyNil) "y" TypeInt (Ident "y") IntSort
           (Const "y" IntSort)
           (set_idents (set_unkTy (freshCtx [] NilSort (fun _ => anyNil)) IntSort)
                       (<["y" := Const "y" IntSort]> ∅))).
  - reflexivity.
  - reflexivity.
  - reflexivity.
  - simpl. discriminate.
Defined.

Lemma impl_NotFound_witness :
  exists ty cond c1,
    sortOfType TypeInt = Some ty /\
    lower (BinaryExpr (Ident "x") EQL (BasicLit INT "5"))
          (set_unkTy (freshCtx [] NilSort (fun _ => anyNil)) ty) = (Ok cond, c1) /\
    idents c1 !! "z" = None /\
    exists m, searchCheck ([] ++ [cond]) = Sat m.
Proof.
  apply (impl_NotFound exampleParse searchCheck 3 [] "x == 5"
           (fun _ => anyNil) "z" TypeInt
           (BinaryExpr (Ident "x") EQL (BasicLit INT "5"))
           "identifier not found" []).
  - reflexivity.
  - vm_compute. reflexivity.
Defined.

Lemma impl_values_are_models_witness :
  exists tree ty cond c1,
    exampleParse "age >= 18 && age < 21" = inl tree /\
    sortOfType TypeInt = Some ty /\
    lower tree (set_unkTy (freshCtx [] NilSort (fun _ => anyNil)) ty)
      = (Ok cond, c1) /\
    forall v, v ∈ [FromInt 18; FromInt 19; FromInt 20] ->
      exists m val,
        idents c1 !! "age" = Some val /\ Model_Eval m val = v /\
        holds m cond = true /\ forall a, a ∈ [] -> holds m a = true.
Proof.
  apply (impl_values_are_models exampleParse searchCheck searchCheck_sound
           10 [] "age >= 18 && age < 21" (fun _ => anyNil) "age" TypeInt
           [FromInt 18; FromInt 19; FromInt 20] []).
  vm_compute. reflexivity.
Defined.

Lemma impl_complete_witness :
  exists tree ty cond c1,
    exampleParse "x == 5" = inl tree /\ sortOfType TypeInt = Some ty /\
    lower tree (set_unkTy (freshCtx [] NilSort (fun _ => anyNil)) ty)
      = (Ok cond, c1) /\
    (holds (modelOf [("x", SInt 5)]) cond = true ->
     exists val, idents c1 !! "x" = Some val /\
                 Model_Eval (modelOf [("x", SInt 5)]) val ∈ [FromInt 5]).
Proof.
  apply (impl_complete exampleParse refutingCheck refutingCheck_refutes
           3 [] "x == 5" (fun _ => anyNil) "x" TypeInt [FromInt 5] []
           (modelOf [("x", SInt 5)])).
  - vm_compute. reflexivity.
  - intros a Ha. by apply elem_of_nil in Ha.
Defined.

Lemma enumerate_constant_query_witness :
  [FromInt 5] = [] \/ [FromInt 5] = [FromInt 5].
Proof.
  eapply (enumerate_constant_query searchCheck searchCheck_sound 5
            {| solver := [Eq (FromInt 5) (FromInt 5)];
               idents := <["x" := FromInt 5]> ∅;
               unkTy := IntSort; resolveIdentifier := fun _ => anyInt 5 |}
            _ "x" (FromInt 5) (SInt 5) [FromInt 5]).
  - reflexivity.
  - reflexivity.
  - vm_compute. reflexivity.
Defined.

End MoreExamples.

Section NewStateBuckets.
Import Dpll.

(** X8: [newState] puts a clause that has an identifier into the enforce
    bucket and watches nothing for it: the unit-propagation bucket and
    the watched-literal index stay empty. *)
Theorem newState_identifier_goes_to_enforce (clause : node) :
  wellShaped clause = true -> hasIdentifier clause = true ->
  exists st,
    newState clause = Ret st /\
    enforce st = [clause] /\ uprop st = [] /\ watched st = ∅ /\
    clauses st = [clause] /\ assignments st = [].
Proof.
  intros Hw Hi. eexists. split; [by apply newState_with_identifier|].
  repeat split.
Qed.

Lemma newState_identifier_goes_to_enforce_witness :
  exists st,
    newState (nodeOr (nodeIdentifier "a") (nodeIdentifier "b")) = Ret st /\
    enforce st = [nodeOr (nodeIdentifier "a") (nodeIdentifier "b")] /\
    uprop st = [] /\ watched st = ∅ /\
    clauses st = [nodeOr (nodeIdentifier "a") (nodeIdentifier "b")] /\
    assignments st = [].
Proof.
  apply (newState_identifier_goes_to_enforce
           (nodeOr (nodeIdentifier "a") (nodeIdentifier "b"))); reflexivity.
Defined.

End NewStateBuckets.

(** ** The stack between calls *)

Section SolverStates.
Import token ast z3 Partial.

Variable ParseExpr : string -> Expr + error.

(** Every state a [Solver] can be in between calls has an empty
    assertion stack. *)
Lemma reachable_empty (s : list Value) : reachable ParseExpr s -> s = [].
Proof.
  induction 1 as [|s Check fuel predicate r q to branch x s' _ IH H].
  - reflexivity.
  - destruct (PartialSolveForAll_stack ParseExpr Check fuel s predicate r q to
                branch x s' H) as [_ Hs]. auto.
Qed.

(** C5: for a [Solver] made by [NewSolver] and used through
    [PartialSolveForAll], every call that returns, with values, with
    any error (syntax, not-supported, type, engine, not-found) or on
    the timeout branch, hands back an empty assertion stack, whatever
    the engine did during the call; so the call was entered with an
    empty stack and the next call starts from one. *)
Theorem PartialSolveForAll_leaves_empty_stack
    (Check : list Value -> CheckResult) (fuel : nat) (s : list Value)
    (predicate : string) (r : Resolver) (q : string) (to : Z)
    (branch : selectCase) (x : result (list Value)) (s' : list Value) :
  reachable ParseExpr s ->
  PartialSolveForAll ParseExpr Check fuel s predicate r q to branch
    = Some (x, s') ->
  s = [] /\ s' = [] /\ reachable ParseExpr s'.
Proof.
  intros Hs H.
  assert (Hs' : reachable ParseExpr s') by (eapply reach_call; eauto).
  split; [by apply reachable_empty|]. split; [by apply reachable_empty|].
  exact Hs'.
Qed.

End SolverStates.

Section SolverStatesExample.
Import token ast z3 Partial.

Lemma PartialSolveForAll_leaves_empty_stack_witness :
  ([] : list Value) = [] /\ ([] : list Value) = [] /\
  reachable exampleParse [].
Proof.
  apply (PartialSolveForAll_leaves_empty_stack exampleParse searchCheck 10 []
           "age >= 18 && age < 21" (fun _ => anyNil) "age" TypeInt caseOut
           (Ok [FromInt 18; FromInt 19; FromInt 20]) []).
  - apply (reach_call exampleParse NewSolver searchCheck 0 "a =="
             (fun _ => anyNil) "a" TypeInt caseErr (Err ParseError) []).
    + apply reach_new.
    + reflexivity.
  - vm_compute. reflexivity.
Defined.

End SolverStatesExample.

(** ** Entries made during lowering *)

Section LowerInvariant.
Import token ast z3 Partial.

Variable R : ctx -> ctx -> Prop.
Hypothesis R_refl : forall c, R c c.
Hypothesis R_trans : forall a b c, R a b -> R b c -> R a c.
Hypothesis R_resolve : forall fields c, R c (snd (resolve fields c)).

Lemma invariant_bind {A B : Type} (x : M A) (k : A -> M B) :
  (forall c, R c (snd (x c))) ->
  (forall a c, R c (snd (k a c))) ->
  forall c, R c (snd (bind x k c)).
Proof.
  intros Hx Hk c. unfold bind. specialize (Hx c).
  destruct (x c) as [[a| |] c1]; simpl in *; try exact Hx.
  eapply R_trans; [exact Hx|apply Hk].
Qed.

(** A relation between contexts that is reflexive, transitive and kept
    by [resolve] is kept by lowering any expression. *)
Lemma lower_invariant (e : Expr) : forall c, R c (snd (lower e c)).
Proof.
  induction e as [X IHX|X IHX Op Y IHY|Op X IHX|K V|X _ I _|X IHX Sel|Name|F _ Args|];
    simpl.
  - exact IHX.
  - unfold lowerBinary.
    apply invariant_bind; [exact IHX|intros x].
    apply invariant_bind; [exact IHY|intros y c].
    unfold pickType, asInt, asBool, asString, bind, ret, fail, panic.
    destruct Op; destruct (Value_Sort x), (Value_Sort y); simpl; apply R_refl.
  - unfold lowerUnary. destruct Op; try (intros c; apply R_refl).
    apply invariant_bind; [exact IHX|intros x c].
    unfold asBool, bind, ret, panic.
    destruct (Value_Sort x); simpl; apply R_refl.
  - intros c. unfold lowerBasicLit. destruct K; try apply R_refl.
    + destruct (Atoi V); apply R_refl.
    + destruct (_ <? _)%nat; apply R_refl.
  - intros c. apply R_refl.
  - intros c. unfold lowerSelectorExpr.
    destruct (evaluateSelector X Sel []); [apply R_refl|apply R_resolve].
  - intros c. unfold lowerIdent.
    destruct (String.eqb Name "true"); [apply R_refl|].
    destruct (String.eqb Name "false"); [apply R_refl|apply R_resolve].
  - intros c. apply R_refl.
  - intros c. apply R_refl.
Qed.

End LowerInvariant.

Section UnknownSorts.
Import token ast z3 Partial.

Lemma entryFor_extends (a b : ctx) (k : string) (v : Value) :
  extends a b -> entryFor b k v -> entryFor a k v.
Proof.
  intros (_ & Hu & Hr & _) (fields & Hk & H). exists fields.
  rewrite <- Hu, <- Hr. auto.
Qed.

(** Every entry lowering adds to the table is the one [resolve] makes
    for its path: the variable of the declared sort for an unknown path,
    the constant for a known int or string. *)
Lemma lower_new_entries (e : Expr) (c : ctx) :
  extends c (snd (lower e c)) /\
  forall k v, idents c !! k = None ->
    idents (snd (lower e c)) !! k = Some v -> entryFor c k v.
Proof.
  apply (lower_invariant
           (fun a b => extends a b /\
              forall k v, idents a !! k = None ->
                idents b !! k = Some v -> entryFor a k v)).
  - intros a. split; [apply extends_refl|]. intros k v H1 H2. congruence.
  - intros a b d [Eab Nab] [Ebd Nbd].
    split; [eapply extends_trans; eauto|]. intros k v Ha Hd.
    destruct (idents b !! k) as [w|] eqn:Hb.
    + destruct Ebd as (_ & _ & _ & Hkeep).
      rewrite (Hkeep k w Hb) in Hd. injection Hd as <-. auto.
    + eapply entryFor_extends; eauto.
  - intros fields a. split; [apply extending_resolve|].
    intros k v Hk. unfold resolve.
    destruct (idents a !! Join fields ".") eqn:Hl; [simpl; congruence|].
    destruct (resolveIdentifier a fields) eqn:Hr; simpl; try congruence;
      (destruct (decide (Join fields "." = k)) as [<-|Hne];
       [ rewrite lookup_insert_eq; intros H; injection H as <-;
         exists fields; rewrite Hr; auto
       | rewrite lookup_insert_ne by assumption; congruence ]).
Qed.

(** C6, as amended: a path the resolver reports unknown, the query path
    or any other, is bound on first use to the fresh variable named by
    the path whose sort is the declared sort of the query, and never
    fails for lack of a sort; and in the lowering of any expression,
    under whatever operators, each entry added to the table for an
    unknown path is that variable of the query's sort. No sort is
    inferred from the context. *)
Theorem resolve_unknown_has_query_sort (c : ctx) (fields : list string) :
  idents c !! Join fields "." = None ->
  resolveIdentifier c fields = anyNil ->
  resolve fields c =
    (Ok (Const (Join fields ".") (unkTy c)),
     set_idents c (<[Join fields "." := Const (Join fields ".") (unkTy c)]>
                     (idents c))) /\
  Value_Sort (Const (Join fields ".") (unkTy c)) = unkTy c /\
  idents (snd (resolve fields c)) !! Join fields "."
    = Some (Const (Join fields ".") (unkTy c)) /\
  (forall err, fst (resolve fields c) <> Err err) /\
  (forall (e : Expr) k v,
     idents c !! k = None ->
     idents (snd (lower e c)) !! k = Some v ->
     entryFor c k v).
Proof.
  intros Hnew Hunk.
  assert (E : resolve fields c =
    (Ok (Const (Join fields ".") (unkTy c)),
     set_idents c (<[Join fields "." := Const (Join fields ".") (unkTy c)]>
                     (idents c)))).
  { unfold resolve. rewrite Hnew, Hunk. reflexivity. }
  split; [exact E|]. split; [reflexivity|]. rewrite E. simpl.
  split; [apply lookup_insert_eq|]. split; [discriminate|].
  intros e k v. apply (lower_new_entries e c).
Qed.

Lemma resolve_unknown_has_query_sort_witness :
  resolve ["env"; "stage"] (freshCtx [] StringSort (fun _ => anyNil)) =
    (Ok (Const "env.stage" StringSort),
     set_idents (freshCtx [] StringSort (fun _ => anyNil))
                (<["env.stage" := Const "env.stage" StringSort]> ∅)) /\
  Value_Sort (Const "env.stage" StringSort) = StringSort /\
  idents (snd (resolve ["env"; "stage"]
                 (freshCtx [] StringSort (fun _ => anyNil)))) !! "env.stage"
    = Some (Const "env.stage" StringSort) /\
  (forall err, fst (resolve ["env"; "stage"]
                      (freshCtx [] StringSort (fun _ => anyNil))) <> Err err) /\
  (forall (e : Expr) k v,
     idents (freshCtx [] StringSort (fun _ => anyNil)) !! k = None ->
     idents (snd (lower e (freshCtx [] StringSort (fun _ => anyNil)))) !! k
       = Some v ->
     entryFor (freshCtx [] StringSort (fun _ => anyNil)) k v).
Proof.
  apply (resolve_unknown_has_query_sort
           (freshCtx [] StringSort (fun _ => anyNil)) ["env"; "stage"]);
    reflexivity.
Defined.

End UnknownSorts.
